(** * libhat: the signature scanner (include/libhat/Scanner.hpp)

    A shallow embedding of the scalar scan engine: the alignment helpers,
    the result type, the two scalar FastFirst kernels, the context
    dispatcher and the find-first / find-all entry points, followed by the
    properties of the specification that concern them.

    Conventions.
    - An address is an integer and the null pointer of a scan result is
      [None].  The scan loops compute with the integer sums, which are the
      pointers of the code as long as they stay below 2^64; where a sum can
      leave that range ([rel], the pointer that [next_boundary_align]
      returns) the reduction modulo 2^64 is written out.
    - Memory is read-only and partial: an address that is not mapped holds
      no byte, and loading from it is a [Fault].
    - [size_t] and [uintptr_t] are 64 bits wide; conversions to them are
      written out as reductions modulo 2^64.
    - Loops that the source writes as [for]/[while] are recursive functions
      on a step budget; running out of budget is the outcome [OutOfFuel]. *)

From Stdlib Require Import ZArith List Bool Lia Sorted.
From Stdlib Require Import Strings.Byte.
Import ListNotations.
Local Open Scope Z_scope.

(* ------------------------------------------------------------------ *)
(** ** Machine model *)

Definition address := Z.

Definition memory := address -> option byte.

Definition to_size_t (z : Z) : Z := z mod 2 ^ 64.

Definition to_uintptr (p : address) : Z := p mod 2 ^ 64.

(** Bytes [data] laid out from address [base]; everything else unmapped. *)
Definition mem_of (base : address) (data : list byte) : memory :=
  fun a =>
    if (base <=? a) && (a <? base + Z.of_nat (length data))
    then nth_error data (Z.to_nat (a - base))
    else None.

Inductive outcome (A : Type) : Type :=
| Done (a : A)
| Fault
| OutOfFuel.

Arguments Done {A} a.
Arguments Fault {A}.
Arguments OutOfFuel {A}.

Definition obind {A B : Type} (m : outcome A) (k : A -> outcome B) : outcome B :=
  match m with
  | Done a => k a
  | Fault => Fault
  | OutOfFuel => OutOfFuel
  end.

Notation "x <- m ;; k" := (obind m (fun x => k))
  (at level 61, m at next level, right associativity).

Definition load (mem : memory) (a : address) : outcome byte :=
  match mem a with
  | Some b => Done b
  | None => Fault
  end.

(* ------------------------------------------------------------------ *)
(** ** Signatures *)

(** [signature_element] is [std::optional<std::byte>]: [None] is a wildcard. *)
Definition signature_element := option byte.

Definition signature_view := list signature_element.

Definition size (signature : signature_view) : Z := Z.of_nat (length signature).

Definition subspan (signature : signature_view) (offset : nat) : signature_view :=
  skipn offset signature.

(** [*signature[0]]: the first element must exist and hold a value.  On
    an empty signature or a leading wildcard the dereference is undefined;
    the model stops there, and no property below is about that path. *)
Definition deref_first (signature : signature_view) : outcome byte :=
  match signature with
  | Some b :: _ => Done b
  | _ => Fault
  end.

(* ------------------------------------------------------------------ *)
(** ** Scan results *)

Definition scan_result_base := option address.
Definition scan_result := scan_result_base.
Definition const_scan_result := scan_result_base.

Definition has_result (r : scan_result_base) : bool :=
  match r with
  | Some _ => true
  | None => false
  end.

Definition get (r : scan_result_base) : option address := r.

(** An integral type of [read<Int>]: its size in bytes and its signedness. *)
Record int_type := { int_bytes : nat; int_signed : bool }.

Definition int32_t : int_type := {| int_bytes := 4; int_signed := true |}.
Definition uint32_t : int_type := {| int_bytes := 4; int_signed := false |}.
Definition rel_t : int_type := int32_t.

Definition sizeof (t : int_type) : Z := Z.of_nat (int_bytes t).

(** The [n] bytes at [a], as the unsigned little-endian integer they encode
    (the scanner targets x86-64). *)
Fixpoint load_le (mem : memory) (n : nat) (a : address) : outcome Z :=
  match n with
  | O => Done 0
  | S n' =>
      b <- load mem a ;;
      hi <- load_le mem n' (a + 1) ;;
      Done (Z.lor (Z.of_N (Byte.to_N b)) (Z.shiftl hi 8))
  end.

(** Two's complement reading of an unsigned value of [bits] bits. *)
Definition as_signed (bits : Z) (u : Z) : Z :=
  if Z.testbit u (bits - 1) then u - 2 ^ bits else u.

Definition reinterpret (t : int_type) (u : Z) : Z :=
  if int_signed t then as_signed (8 * sizeof t) u else u.

(** [read<Int>(offset)]; on a null result the dereference is undefined. *)
Definition read (mem : memory) (r : scan_result_base) (t : int_type) (offset : Z)
  : outcome Z :=
  match r with
  | Some result => u <- load_le mem (int_bytes t) (result + offset) ;; Done (reinterpret t u)
  | None => Fault
  end.

(** [index<Int, ArrayType>(offset)], with [elem_size = sizeof(ArrayType)]. *)
Definition index (mem : memory) (r : scan_result_base) (t : int_type) (elem_size : Z)
  (offset : Z) : outcome Z :=
  v <- read mem r t offset ;; Done (to_size_t v / elem_size).

(** Pointer plus integer; the null pointer stays null in the model. *)
Definition ptr_add (r : scan_result_base) (d : Z) : scan_result_base :=
  option_map (fun p => p + d) r.

(** Pointer plus integer as the machine computes it, on 64-bit pointer
    values. *)
Definition ptr_add64 (p : Z) (d : Z) : Z := to_uintptr (p + d).

(** A 64-bit pointer value as a result: the value 0 is the null pointer. *)
Definition to_pointer (z : Z) : scan_result_base :=
  if z =? 0 then None else Some z.

Definition rel (mem : memory) (r : scan_result_base) (offset : Z)
  : outcome scan_result_base :=
  match r with
  | Some result =>
      d <- read mem r rel_t offset ;;
      Done (to_pointer
              (ptr_add64 (ptr_add64 (ptr_add64 result d) offset) (sizeof rel_t)))
  | None => Done None
  end.

(* ------------------------------------------------------------------ *)
(** ** Alignment *)

Inductive scan_alignment := X1 | X16.

Definition alignment_stride (alignment : scan_alignment) : Z :=
  match alignment with
  | X1 => 1
  | X16 => 16
  end.

Definition scan_hint := Z.

Definition hint_none : scan_hint := 0.
Definition hint_x86_64 : scan_hint := Z.shiftl 1 0.

Definition scan_hint_or (lhs rhs : scan_hint) : scan_hint := Z.lor lhs rhs.
Definition scan_hint_and (lhs rhs : scan_hint) : scan_hint := Z.land lhs rhs.

Definition next_boundary_align (alignment : scan_alignment) (ptr : address) : address :=
  let stride := alignment_stride alignment in
  if stride =? 1 then ptr
  else
    let mod_ := to_uintptr ptr mod stride in
    ptr + (if mod_ =? 0 then 0 else stride - mod_).

Definition prev_boundary_align (alignment : scan_alignment) (ptr : address) : address :=
  let stride := alignment_stride alignment in
  if stride =? 1 then ptr
  else
    let mod_ := to_uintptr ptr mod stride in
    ptr - mod_.

(** The pointers the two functions return: [ptr += ...] and [ptr - mod] are
    64-bit pointer arithmetic.  They are the integers above whenever
    [0 <= ptr] and [ptr + stride <= 2^64]. *)
Definition next_boundary_align_ptr (alignment : scan_alignment) (ptr : address)
  : address :=
  to_uintptr (next_boundary_align alignment ptr).

Definition prev_boundary_align_ptr (alignment : scan_alignment) (ptr : address)
  : address :=
  to_uintptr (prev_boundary_align alignment ptr).

(* ------------------------------------------------------------------ *)
(** ** Scan context and kernels (namespace [detail]) *)

(** The data members of [scan_context] that a kernel may read.  The kernel
    pointer itself is kept apart in [scan_context] below, since a kernel
    takes the context as an argument. *)
Record scan_fields := {
  signature : signature_view;
  alignment : scan_alignment;
  vectorSize : Z;
  hints : scan_hint
}.

Definition scan_function_t :=
  memory -> address -> address -> scan_fields -> outcome const_scan_result.

Record scan_context := {
  fields : scan_fields;
  scanner : scan_function_t
}.

Inductive scan_mode := FastFirst | SSE | AVX2 | AVX512.

Definition Single : scan_mode := FastFirst.

(** The comparator handed to [std::equal]:
    [!opt.has_value() || *opt == byte]. *)
Definition elem_matches (opt : signature_element) (b : byte) : bool :=
  match opt with
  | None => true
  | Some v => Byte.eqb v b
  end.

Section Kernels.

Variable mem : memory.

(** [std::find(first, last, value)] over bytes in memory. *)
Fixpoint std_find (fuel : nat) (first last : address) (value : byte)
  : outcome address :=
  match fuel with
  | O => OutOfFuel
  | S fuel' =>
      if first =? last then Done last
      else
        b <- load mem first ;;
        if Byte.eqb b value then Done first
        else std_find fuel' (first + 1) last value
  end.

(** [std::find(std::execution::unseq, ...)]: the policy relaxes the order
    of evaluation, the iterator returned is specified as for [std::find]. *)
Definition std_find_unseq (fuel : nat) (first last : address) (value : byte)
  : outcome address :=
  std_find fuel first last value.

(** [std::equal(first1, last1, first2, pred)] with the first range a
    signature and the second one starting at address [first2]. *)
Fixpoint std_equal (range1 : signature_view) (first2 : address)
  (pred : signature_element -> byte -> bool) : outcome bool :=
  match range1 with
  | [] => Done true
  | opt :: rest =>
      b <- load mem first2 ;;
      if pred opt b then std_equal rest (first2 + 1) pred else Done false
  end.

(** Steps [std::find] may need between [first] and [last]. *)
Definition find_budget (first last : address) : nat :=
  S (Z.to_nat (last - first)).

(** The loop of [find_pattern<FastFirst, X1>], entered with cursor [i]. *)
Fixpoint FastFirst_X1_loop (fuel : nat) (consteval : bool)
  (signature : signature_view) (firstByte : byte) (scanEnd i : address)
  : outcome const_scan_result :=
  match fuel with
  | O => OutOfFuel
  | S fuel' =>
      if i =? scanEnd then Done None
      else
        i <- (if consteval
              then std_find (find_budget i scanEnd) i scanEnd firstByte
              else std_find_unseq (find_budget i scanEnd) i scanEnd firstByte) ;;
        if i =? scanEnd then Done None
        else
          match_ <- std_equal (tl signature) (i + 1) elem_matches ;;
          if match_ then Done (Some i)
          else FastFirst_X1_loop fuel' consteval signature firstByte scanEnd (i + 1)
  end.

Definition find_pattern_FastFirst_X1 (consteval : bool) (begin end_ : address)
  (context : scan_fields) : outcome const_scan_result :=
  let signature := signature context in
  firstByte <- deref_first signature ;;
  let scanEnd := end_ - size signature + 1 in
  FastFirst_X1_loop (find_budget begin scanEnd) consteval signature firstByte
    scanEnd begin.

(** The loop of [find_pattern<FastFirst, X16>], entered with cursor [i]. *)
Fixpoint FastFirst_X16_loop (fuel : nat) (signature : signature_view)
  (firstByte : byte) (scanEnd i : address) : outcome const_scan_result :=
  match fuel with
  | O => OutOfFuel
  | S fuel' =>
      if i =? scanEnd then Done None
      else
        b <- load mem i ;;
        if Byte.eqb b firstByte then
          match_ <- std_equal (tl signature) (i + 1) elem_matches ;;
          if match_ then Done (Some i)
          else FastFirst_X16_loop fuel' signature firstByte scanEnd (i + 16)
        else FastFirst_X16_loop fuel' signature firstByte scanEnd (i + 16)
  end.

Definition find_pattern_FastFirst_X16 (begin end_ : address)
  (context : scan_fields) : outcome const_scan_result :=
  let signature := signature context in
  firstByte <- deref_first signature ;;
  let scanBegin := next_boundary_align X16 begin in
  let scanEnd := prev_boundary_align X16 (end_ - size signature + 1) in
  if scanEnd <=? scanBegin then Done None
  else
    FastFirst_X16_loop (S (Z.to_nat ((scanEnd - scanBegin) / 16))) signature
      firstByte scanEnd scanBegin.

End Kernels.

(** [find_pattern<scan_mode::FastFirst, alignment>] as a kernel pointer. *)
Definition find_pattern_FastFirst (consteval : bool) (alignment : scan_alignment)
  : scan_function_t :=
  fun mem begin end_ context =>
    match alignment with
    | X1 => find_pattern_FastFirst_X1 mem consteval begin end_ context
    | X16 => find_pattern_FastFirst_X16 mem begin end_ context
    end.

(** [detail::truncate]: the number of leading wildcards and the rest. *)
Fixpoint truncate_offset (signature : signature_view) : nat :=
  match signature with
  | None :: rest => S (truncate_offset rest)
  | _ => O
  end.

Definition truncate (signature : signature_view) : nat * signature_view :=
  let offset := truncate_offset signature in
  (offset, subspan signature offset).

(* ------------------------------------------------------------------ *)
(** ** Entry points

    An entry point is run with a log of what it does to the outside: each
    call of the stored kernel and each address written to the output. *)

Inductive event :=
| EvScan (begin end_ : address)
| EvOut (addr : address).

Definition traced (A : Type) : Type := list event * outcome A.

Definition tret {A : Type} (a : A) : traced A := ([], Done a).

Definition tbind {A B : Type} (m : traced A) (k : A -> traced B) : traced B :=
  match m with
  | (t, Done a) => let '(t', r) := k a in (t ++ t', r)
  | (t, Fault) => (t, Fault)
  | (t, OutOfFuel) => (t, OutOfFuel)
  end.

Notation "x <~ m ;; k" := (tbind m (fun x => k))
  (at level 61, m at next level, right associativity).

Definition emit (a : address) : traced unit := ([EvOut a], Done tt).

Definition scans (t : list event) : list (address * address) :=
  flat_map (fun ev => match ev with EvScan b e => [(b, e)] | EvOut _ => [] end) t.

Definition outputs (t : list event) : list address :=
  flat_map (fun ev => match ev with EvOut a => [a] | EvScan _ _ => [] end) t.

Section Dispatch.

(** Declared in this header and defined elsewhere: the run-time choice of
    a kernel with its vector width, and the adjustment for the hints. *)
Variable resolve_scanner : scan_alignment -> scan_function_t * Z.
Variable apply_hints : scan_context -> scan_context.

(** [LIBHAT_IF_CONSTEVAL]: whether the call is evaluated at translation
    time. *)
Variable consteval : bool.

Variable mem : memory.

(** [scan_context::scan]: a trampoline to the stored kernel. *)
Definition scan (context : scan_context) (begin end_ : address)
  : traced const_scan_result :=
  ([EvScan begin end_], scanner context mem begin end_ (fields context)).

(** [scan_context::create<alignment>]. *)
Definition create (alignment : scan_alignment) (signature : signature_view)
  (hints : scan_hint) : scan_context :=
  let ctx_fields := {| signature := signature; alignment := alignment;
                       vectorSize := 0; hints := hints |} in
  if consteval then
    {| fields := ctx_fields; scanner := find_pattern_FastFirst true alignment |}
  else
    let '(fn, width) := resolve_scanner alignment in
    apply_hints
      {| fields := {| signature := signature; alignment := alignment;
                      vectorSize := width; hints := hints |};
         scanner := fn |}.

(** Root implementation of [hat::find_pattern]. *)
Definition find_pattern (alignment : scan_alignment) (beginIt endIt : address)
  (signature : signature_view) (hints : scan_hint) : traced scan_result :=
  let '(offset, trunc) := truncate signature in
  let begin := beginIt + Z.of_nat offset in
  let end_ := endIt in
  if (end_ <=? begin) || (to_size_t (end_ - begin) <? size trunc)
  then tret None
  else
    let context := create alignment trunc hints in
    result <~ scan context begin end_ ;;
    tret (if has_result result then ptr_add (get result) (- Z.of_nat offset)
          else None).

(** The loop of the bounded [hat::find_all_pattern]; the output range is
    a pair of positions [out], [endOut]. *)
Fixpoint find_all_bounded_loop (fuel : nat) (alignment : scan_alignment)
  (context : scan_context) (offset : nat) (trunc : signature_view)
  (end_ : address) (endOut : Z) (i : address) (out : Z)
  : traced (address * Z) :=
  match fuel with
  | O => ([], OutOfFuel)
  | S fuel' =>
      if (i <? end_) && negb (out =? endOut)
         && (size trunc <=? to_size_t (end_ - i))
      then
        result <~ scan context i end_ ;;
        match result with
        | None => tret (end_, out)
        | Some p =>
            let addr := p - Z.of_nat offset in
            _ <~ emit addr ;;
            find_all_bounded_loop fuel' alignment context offset trunc end_ endOut
              (addr + alignment_stride alignment) (out + 1)
        end
      else tret (i, out)
  end.

Definition find_all_pattern (fuel : nat) (alignment : scan_alignment)
  (beginIn endIn : address) (beginOut endOut : Z)
  (signature : signature_view) (hints : scan_hint) : traced (address * Z) :=
  let '(offset, trunc) := truncate signature in
  let begin := beginIn + Z.of_nat offset in
  let end_ := endIn in
  let context := create alignment trunc hints in
  r <~ find_all_bounded_loop fuel alignment context offset trunc end_ endOut
         begin beginOut ;;
  let '(i, out) := r in
  tret (beginIn + (i - begin), out).

(** The loop of the counted [hat::find_all_pattern]. *)
Fixpoint find_all_counted_loop (fuel : nat) (alignment : scan_alignment)
  (context : scan_context) (offset : nat) (trunc : signature_view)
  (begin end_ : address) (i : address) (matches : Z) : traced Z :=
  match fuel with
  | O => ([], OutOfFuel)
  | S fuel' =>
      if (begin <? end_) && (size trunc <=? to_size_t (end_ - i))
      then
        result <~ scan context i end_ ;;
        match result with
        | None => tret matches
        | Some p =>
            let addr := p - Z.of_nat offset in
            _ <~ emit addr ;;
            find_all_counted_loop fuel' alignment context offset trunc begin end_
              (addr + alignment_stride alignment) (to_size_t (matches + 1))
        end
      else tret matches
  end.

Definition find_all_pattern_counted (fuel : nat) (alignment : scan_alignment)
  (beginIn endIn : address) (signature : signature_view) (hints : scan_hint)
  : traced Z :=
  let '(offset, trunc) := truncate signature in
  let begin := beginIn + Z.of_nat offset in
  let end_ := endIn in
  let context := create alignment trunc hints in
  find_all_counted_loop fuel alignment context offset trunc begin end_ begin 0.

End Dispatch.

(* ------------------------------------------------------------------ *)
(** ** Vocabulary of the properties *)

(** The match predicate: at start [p], every element of the signature is a
    wildcard or equals the byte under it. *)
Definition matches_at (mem : memory) (signature : signature_view) (p : address)
  : Prop :=
  forall k v, nth_error signature k = Some (Some v) ->
              mem (p + Z.of_nat k) = Some v.

(** Every address of [[b, e)] holds a byte. *)
Definition mapped (mem : memory) (b e : address) : Prop :=
  forall a, b <= a < e -> exists v, mem a = Some v.

Definition multiple_of (stride : Z) (p : address) : Prop := p mod stride = 0.

(** [r] is the answer of a byte-by-byte reference search for [signature]
    among the admissible starts [p] of [[b, e)] with [p + |signature| <= e]:
    the lowest such start that matches, or null. *)
Definition first_match (mem : memory) (admissible : address -> Prop)
  (signature : signature_view) (b e : address) (r : option address) : Prop :=
  match r with
  | Some p =>
      b <= p /\ p + size signature <= e /\ admissible p /\
      matches_at mem signature p /\
      forall q, b <= q < p -> admissible q -> ~ matches_at mem signature q
  | None =>
      forall q, b <= q -> q + size signature <= e -> admissible q ->
                ~ matches_at mem signature q
  end.

(** A signature as the parser hands it over: some leading wildcards, then a
    concrete element, then anything. *)
Definition well_formed (signature : signature_view) : Prop :=
  exists v rest, subspan signature (truncate_offset signature) = Some v :: rest.

(** Modelled from the spec: [resolve_scanner], which this header only
    declares, on a processor without a vector instruction set ("the
    dispatcher always has a scalar fallback"): the scalar kernel, vector
    width 0. *)
Definition resolve_scalar (alignment : scan_alignment) : scan_function_t * Z :=
  (find_pattern_FastFirst false alignment, 0).

(** Modelled from the spec: [apply_hints], which this header only declares,
    for a hint set that unlocks nothing ("hints never change correctness"). *)
Definition apply_no_hints (context : scan_context) : scan_context := context.

(** A context over [sig] whose stored kernel is the scalar one for [al]. *)
Definition scalar_context (ctx : scan_context) (al : scan_alignment)
  (sig : signature_view) : Prop :=
  signature (fields ctx) = sig /\
  exists c, scanner ctx = find_pattern_FastFirst c al.

(** A dispatcher that settles on the scalar kernels, as the translation-time
    path does and as the run-time path does without a vector unit. *)
Definition selects_scalar (resolve_scanner : scan_alignment -> scan_function_t * Z)
  (apply_hints : scan_context -> scan_context) (consteval : bool) : Prop :=
  forall al sig h,
    scalar_context (create resolve_scanner apply_hints consteval al sig h) al sig.

(** The exclusive end of the range whose starts the scalar kernel for [al]
    examines, written as an end of range for [first_match]. *)
Definition kernel_bound (al : scan_alignment) (sig : signature_view) (e : address)
  : address :=
  match al with
  | X1 => e
  | X16 => prev_boundary_align X16 (e - size sig + 1) + size sig - 1
  end.

(** The first stride-aligned start at or after the [begin] of a find call. *)
Definition first_candidate (al : scan_alignment) (beginIt : address) : address :=
  next_boundary_align al beginIt.

(** The signed value of an unsigned 32-bit pattern. *)
Definition sext32 (u : Z) : Z := if u <? 2 ^ 31 then u else u - 2 ^ 32.

Definition byte_val (b : byte) : Z := Z.of_N (Byte.to_N b).

(** The unsigned value of four bytes, the lowest address first. *)
Definition le32 (b0 b1 b2 b3 : byte) : Z :=
  byte_val b0 + 2 ^ 8 * byte_val b1 + 2 ^ 16 * byte_val b2 + 2 ^ 24 * byte_val b3.

(** Modelled from the spec: the contract of the kernels that [resolve_scanner]
    and [apply_hints] may install for stride 1, which are defined outside
    this header ("every mode x alignment combination implements the same
    contract": the first start of [[begin, end)] at which the signature
    matches, null when there is none). *)
Definition runtime_contract_X1
  (resolve_scanner : scan_alignment -> scan_function_t * Z)
  (apply_hints : scan_context -> scan_context) : Prop :=
  forall sig h mem b e v rest,
    let ctx := create resolve_scanner apply_hints false X1 sig h in
    sig = Some v :: rest -> size sig <= e - b -> mapped mem b e ->
    exists r, scanner ctx mem b e (fields ctx) = Done r /\
              first_match mem (multiple_of 1) sig b e r.

(* ------------------------------------------------------------------ *)
(** ** The rest of the header *)

(** Conversion to an unsigned integral type of [bits] bits. *)
Definition to_type (bits : Z) (z : Z) : Z := z mod 2 ^ bits.

(** The loop of [create_alignment_mask], entered with counter [i]:
    [for (; i < sizeof(type) * 8; i += stride) mask |= (type(1) << i)]. *)
Fixpoint alignment_mask_loop (fuel : nat) (bits stride : Z) (i mask : Z)
  : outcome Z :=
  match fuel with
  | O => OutOfFuel
  | S fuel' =>
      if i <? bits
      then alignment_mask_loop fuel' bits stride (i + stride)
             (Z.lor mask (to_type bits (Z.shiftl 1 i)))
      else Done mask
  end.

(** [create_alignment_mask<type, alignment>()], for an unsigned [type] of
    [type_size] bytes; the mask is given as the value of its bit pattern. *)
Definition create_alignment_mask (type_size : Z) (alignment : scan_alignment)
  : outcome Z :=
  let bits := type_size * 8 in
  alignment_mask_loop (S (Z.to_nat bits)) bits (alignment_stride alignment) 0 0.

(** The wrapper of [find_all_pattern] that returns a [std::vector]: the
    counted overload run with a back inserter and no hints. *)
Definition find_all_pattern_vector
  (resolve_scanner : scan_alignment -> scan_function_t * Z)
  (apply_hints : scan_context -> scan_context) (consteval : bool) (mem : memory)
  (fuel : nat) (alignment : scan_alignment) (beginIt endIt : address)
  (signature : signature_view) : traced (list address) :=
  let '(t, r) := find_all_pattern_counted resolve_scanner apply_hints consteval
                   mem fuel alignment beginIt endIt signature hint_none in
  (t, _ <- r ;; Done (outputs t)).

(** Two memories hold the same bytes on [[b, e)]. *)
Definition agree_on (mem mem' : memory) (b e : address) : Prop :=
  forall a, b <= a < e -> mem a = mem' a.

(** The values of an integral type. *)
Definition int_lo (t : int_type) : Z :=
  if int_signed t then - 2 ^ (8 * sizeof t - 1) else 0.

Definition int_hi (t : int_type) : Z :=
  if int_signed t then 2 ^ (8 * sizeof t - 1) else 2 ^ (8 * sizeof t).

(** The unsigned value of a list of bytes, the lowest address first. *)
Fixpoint le_value (bs : list byte) : Z :=
  match bs with
  | [] => 0
  | b :: rest => byte_val b + 2 ^ 8 * le_value rest
  end.

(** The bytes of [[a, a + n)], when all of them are mapped. *)
Fixpoint bytes_at (mem : memory) (n : nat) (a : address) : option (list byte) :=
  match n with
  | O => Some []
  | S n' =>
      match mem a, bytes_at mem n' (a + 1) with
      | Some b, Some rest => Some (b :: rest)
      | _, _ => None
      end
  end.

(* ------------------------------------------------------------------ *)
(** * Properties *)

(** ** Alignment helpers *)

Lemma uintptr_mod16 (p : address) : to_uintptr p mod 16 = p mod 16.
Proof.
  unfold to_uintptr.
  apply Z.mod_mod_divide.
  exists (2 ^ 60). reflexivity.
Qed.

Lemma next_boundary_align_X16 (p : address) :
  next_boundary_align X16 p = p + (16 - p mod 16) mod 16.
Proof.
  unfold next_boundary_align. cbn [alignment_stride].
  replace (16 =? 1) with false by reflexivity.
  cbv zeta. rewrite uintptr_mod16.
  pose proof (Z.mod_pos_bound p 16 ltac:(lia)) as Hm.
  destruct (Z.eqb_spec (p mod 16) 0) as [E | E].
  - rewrite E. reflexivity.
  - rewrite (Z.mod_small (16 - p mod 16)) by lia. reflexivity.
Qed.

Lemma prev_boundary_align_X16 (p : address) :
  prev_boundary_align X16 p = p - p mod 16.
Proof.
  unfold prev_boundary_align. cbn [alignment_stride].
  replace (16 =? 1) with false by reflexivity.
  cbv zeta. rewrite uintptr_mod16. reflexivity.
Qed.

Lemma next_boundary_align_X16_spec (p : address) :
  p <= next_boundary_align X16 p < p + 16 /\ next_boundary_align X16 p mod 16 = 0.
Proof.
  rewrite next_boundary_align_X16.
  pose proof (Z.mod_pos_bound p 16 ltac:(lia)).
  pose proof (Z.mod_pos_bound (16 - p mod 16) 16 ltac:(lia)).
  split; [lia |].
  rewrite Zplus_mod, Zmod_mod, <- Zplus_mod.
  replace (p + (16 - p mod 16)) with (p - p mod 16 + 1 * 16) by lia.
  rewrite Z_mod_plus_full. rewrite Zminus_mod_idemp_r, Z.sub_diag. reflexivity.
Qed.

Lemma prev_boundary_align_X16_spec (p : address) :
  p - 16 < prev_boundary_align X16 p <= p /\ prev_boundary_align X16 p mod 16 = 0.
Proof.
  rewrite prev_boundary_align_X16.
  pose proof (Z.mod_pos_bound p 16 ltac:(lia)).
  split; [lia |].
  rewrite Zminus_mod_idemp_r, Z.sub_diag. reflexivity.
Qed.

Lemma aligned_gap (a b : Z) :
  a mod 16 = 0 -> b mod 16 = 0 -> a < b -> a + 16 <= b.
Proof.
  intros Ha Hb Hlt.
  apply Z.mod_divide in Ha; [| lia]. apply Z.mod_divide in Hb; [| lia].
  destruct Ha as [x ->]. destruct Hb as [y ->]. lia.
Qed.

Lemma next_boundary_align_X16_least (p q : address) :
  p <= q -> q mod 16 = 0 -> next_boundary_align X16 p <= q.
Proof.
  intros Hq Hqa. destruct (next_boundary_align_X16_spec p) as [Hn Hna].
  destruct (Z.le_gt_cases (next_boundary_align X16 p) q) as [|Hlt]; [assumption |].
  pose proof (aligned_gap _ _ Hqa Hna Hlt). lia.
Qed.

Lemma prev_boundary_align_X16_greatest (p q : address) :
  q <= p -> q mod 16 = 0 -> q <= prev_boundary_align X16 p.
Proof.
  intros Hq Hqa. destruct (prev_boundary_align_X16_spec p) as [Hp Hpa].
  destruct (Z.le_gt_cases q (prev_boundary_align X16 p)) as [|Hlt]; [assumption |].
  pose proof (aligned_gap _ _ Hpa Hqa Hlt). lia.
Qed.

Lemma boundary_align_extremal_Z (al : scan_alignment) (p : address) :
  let s := alignment_stride al in
  (p <= next_boundary_align al p /\ next_boundary_align al p mod s = 0 /\
   forall q, p <= q -> q mod s = 0 -> next_boundary_align al p <= q) /\
  (prev_boundary_align al p <= p /\ prev_boundary_align al p mod s = 0 /\
   forall q, q <= p -> q mod s = 0 -> q <= prev_boundary_align al p) /\
  (s = 1 -> next_boundary_align al p = p /\ prev_boundary_align al p = p).
Proof.
  destruct al; cbn [alignment_stride]; cbv zeta.
  - unfold next_boundary_align, prev_boundary_align. cbn.
    repeat split; try lia; apply Z.mod_1_r.
  - destruct (next_boundary_align_X16_spec p) as [Hn Hna].
    destruct (prev_boundary_align_X16_spec p) as [Hp Hpa].
    repeat split; try lia; try assumption; try discriminate.
    + apply next_boundary_align_X16_least.
    + apply prev_boundary_align_X16_greatest.
Qed.

(** Inside the address space the pointers returned are the integer
    results, and these leave room for a further stride. *)
Lemma boundary_ptr_in_range (al : scan_alignment) (p : address) :
  0 <= p -> p + alignment_stride al <= 2 ^ 64 ->
  next_boundary_align_ptr al p = next_boundary_align al p /\
  prev_boundary_align_ptr al p = prev_boundary_align al p /\
  0 <= next_boundary_align al p /\
  next_boundary_align al p + alignment_stride al <= 2 ^ 64 /\
  0 <= prev_boundary_align al p /\
  prev_boundary_align al p + alignment_stride al <= 2 ^ 64.
Proof.
  intros Hlo Hhi. unfold next_boundary_align_ptr, prev_boundary_align_ptr, to_uintptr.
  assert (Hfacts : 0 <= next_boundary_align al p /\
                   next_boundary_align al p + alignment_stride al <= 2 ^ 64 /\
                   0 <= prev_boundary_align al p /\
                   prev_boundary_align al p + alignment_stride al <= 2 ^ 64).
  { destruct al; cbn [alignment_stride] in *.
    - unfold next_boundary_align, prev_boundary_align. cbn. lia.
    - destruct (next_boundary_align_X16_spec p) as [Hn Hna].
      destruct (prev_boundary_align_X16_spec p) as [Hp Hpa].
      pose proof (Z.mod_pos_bound p 16 ltac:(lia)) as Hm.
      pose proof (Z.mod_le p 16 Hlo ltac:(lia)) as Hle.
      rewrite prev_boundary_align_X16 in *.
      assert (Htop : (2 ^ 64) mod 16 = 0) by reflexivity.
      pose proof (aligned_gap (next_boundary_align X16 p) (2 ^ 64) Hna Htop
                    ltac:(lia)).
      lia. }
  destruct Hfacts as (H1 & H2 & H3 & H4).
  assert (Hs : 0 < alignment_stride al) by (destruct al; cbn; lia).
  repeat split; try assumption; apply Z.mod_small; lia.
Qed.

Lemma prev_boundary_ptr_in_range (al : scan_alignment) (p : address) :
  0 <= p < 2 ^ 64 ->
  prev_boundary_align_ptr al p = prev_boundary_align al p.
Proof.
  intros Hp. unfold prev_boundary_align_ptr, to_uintptr. apply Z.mod_small.
  destruct al.
  - unfold prev_boundary_align. cbn. lia.
  - rewrite prev_boundary_align_X16.
    pose proof (Z.mod_pos_bound p 16 ltac:(lia)).
    pose proof (Z.mod_le p 16 ltac:(lia) ltac:(lia)). lia.
Qed.

(** C9, for a 64-bit pointer [p]: when [p + stride] is still inside the
    address space, the pointer [next_boundary_align] returns is the
    smallest multiple of the stride at or above [p]; the pointer
    [prev_boundary_align] returns is the largest multiple of the stride at
    or below [p]; and for stride 1 both return [p]. *)
Theorem C9_boundary_align_extremal_in_range :
  forall (al : scan_alignment) (p : address),
    0 <= p < 2 ^ 64 ->
    let s := alignment_stride al in
    let next := next_boundary_align_ptr al p in
    let prev := prev_boundary_align_ptr al p in
    (p + s <= 2 ^ 64 ->
     p <= next /\ next mod s = 0 /\
     forall q, p <= q -> q mod s = 0 -> next <= q) /\
    (prev <= p /\ prev mod s = 0 /\
     forall q, q <= p -> q mod s = 0 -> q <= prev) /\
    (s = 1 -> next = p /\ prev = p).
Proof.
  intros al p Hp. cbv zeta.
  rewrite (prev_boundary_ptr_in_range al p Hp).
  destruct (boundary_align_extremal_Z al p) as (Hnext & Hprev & Hone).
  split; [| split; [exact Hprev |]].
  - intros Hroom.
    destruct (boundary_ptr_in_range al p (proj1 Hp) Hroom) as (-> & _).
    exact Hnext.
  - intros Hs. destruct (Hone Hs) as [Hn Hpv]. split; [| exact Hpv].
    unfold next_boundary_align_ptr, to_uintptr. rewrite Hn.
    apply Z.mod_small. exact Hp.
Qed.

(** The pointer 4097 lies between the boundaries 4096 and 4112. *)
Lemma C9_boundary_align_extremal_in_range_witness :
  (4097 + 16 <= 2 ^ 64 ->
   4097 <= next_boundary_align_ptr X16 4097 /\
   next_boundary_align_ptr X16 4097 mod 16 = 0 /\
   forall q, 4097 <= q -> q mod 16 = 0 -> next_boundary_align_ptr X16 4097 <= q) /\
  (prev_boundary_align_ptr X16 4097 <= 4097 /\
   prev_boundary_align_ptr X16 4097 mod 16 = 0 /\
   forall q, q <= 4097 -> q mod 16 = 0 -> q <= prev_boundary_align_ptr X16 4097) /\
  (16 = 1 -> next_boundary_align_ptr X16 4097 = 4097 /\
             prev_boundary_align_ptr X16 4097 = 4097).
Proof.
  refine (C9_boundary_align_extremal_in_range X16 4097 _).
  split; [lia | reflexivity].
Defined.

(** C9 fails for a pointer in the last 15 bytes of the address space: no
    multiple of 16 at or above [2^64 - 1] is a 64-bit pointer, the sum
    wraps, and the pointer returned is 0, below the argument. *)
Lemma C9_next_boundary_wraps_at_top :
  next_boundary_align_ptr X16 (2 ^ 64 - 1) = 0 /\
  ~ (2 ^ 64 - 1 <= next_boundary_align_ptr X16 (2 ^ 64 - 1)).
Proof.
  split; [reflexivity |]. vm_compute. intros H. now apply H.
Qed.

(** ** The match predicate and the comparator *)

Lemma byte_eqb_true (a b : byte) : Byte.eqb a b = true <-> a = b.
Proof.
  split; [apply Byte.byte_dec_bl | apply Byte.byte_dec_lb].
Qed.

Lemma byte_eqb_refl (a : byte) : Byte.eqb a a = true.
Proof.
  now apply byte_eqb_true.
Qed.

Lemma size_cons (x : signature_element) (s : signature_view) :
  size (x :: s) = size s + 1.
Proof.
  unfold size. cbn [length]. lia.
Qed.

Lemma size_nonneg (s : signature_view) : 0 <= size s.
Proof.
  unfold size. lia.
Qed.

Lemma matches_at_nil (mem : memory) (p : address) : matches_at mem [] p.
Proof.
  intros [|k] v H; discriminate H.
Qed.

Lemma matches_at_cons (mem : memory) (x : signature_element) (s : signature_view)
  (p : address) :
  matches_at mem (x :: s) p <->
  (forall v, x = Some v -> mem p = Some v) /\ matches_at mem s (p + 1).
Proof.
  split.
  - intros H. split.
    + intros v ->. specialize (H 0%nat v eq_refl).
      rewrite Z.add_0_r in H. exact H.
    + intros k v Hk. specialize (H (S k) v Hk).
      replace (p + 1 + Z.of_nat k) with (p + Z.of_nat (S k)) by lia. exact H.
  - intros [H0 Hs] [|k] v Hk.
    + cbn in Hk. injection Hk as ->. rewrite Z.add_0_r. now apply H0.
    + specialize (Hs k v Hk).
      replace (p + Z.of_nat (S k)) with (p + 1 + Z.of_nat k) by lia. exact Hs.
Qed.

Lemma matches_at_wildcards (mem : memory) (n : nat) (s : signature_view)
  (p : address) :
  matches_at mem (repeat None n ++ s) p <-> matches_at mem s (p + Z.of_nat n).
Proof.
  revert p. induction n as [|n IH]; intros p.
  - cbn. rewrite Z.add_0_r. reflexivity.
  - cbn [repeat app]. rewrite matches_at_cons, IH.
    replace (p + 1 + Z.of_nat n) with (p + Z.of_nat (S n)) by lia.
    split; [intros [_ H]; exact H | intros H; split; [discriminate | exact H]].
Qed.

Lemma truncate_split (s : signature_view) :
  s = repeat None (truncate_offset s) ++ subspan s (truncate_offset s).
Proof.
  unfold subspan. induction s as [|[v|] s IH]; cbn; try reflexivity.
  f_equal. exact IH.
Qed.

Lemma truncate_size (s : signature_view) :
  size s = Z.of_nat (truncate_offset s) + size (subspan s (truncate_offset s)).
Proof.
  unfold size. pose proof (f_equal (@length _) (truncate_split s)) as H.
  rewrite length_app, repeat_length in H.
  rewrite H. apply Nat2Z.inj_add.
Qed.

Lemma truncate_wildcards (n : nat) (v : byte) (rest : signature_view) :
  truncate (repeat None n ++ Some v :: rest) = (n, Some v :: rest).
Proof.
  unfold truncate, subspan.
  assert (truncate_offset (repeat None n ++ Some v :: rest) = n) as ->.
  { induction n as [|n IH]; cbn; [reflexivity | now rewrite IH]. }
  f_equal. induction n as [|n IH]; cbn; [reflexivity | exact IH].
Qed.

Lemma well_formed_shape (s : signature_view) :
  well_formed s <-> exists n v rest, s = repeat None n ++ Some v :: rest.
Proof.
  split.
  - intros (v & rest & H). exists (truncate_offset s), v, rest.
    rewrite <- H. apply truncate_split.
  - intros (n & v & rest & ->). exists v, rest.
    pose proof (truncate_wildcards n v rest) as H. unfold truncate in H.
    now injection H as -> ->.
Qed.

Section KernelFacts.

Variable mem : memory.

Lemma std_equal_decides (s : signature_view) (p : address) :
  mapped mem p (p + size s) ->
  (std_equal mem s p elem_matches = Done true /\ matches_at mem s p) \/
  (std_equal mem s p elem_matches = Done false /\ ~ matches_at mem s p).
Proof.
  revert p. induction s as [|x s IH]; intros p Hmap.
  - left. split; [reflexivity | apply matches_at_nil].
  - rewrite size_cons in Hmap. pose proof (size_nonneg s) as Hs.
    destruct (Hmap p ltac:(lia)) as [b Hb].
    cbn [std_equal]. unfold load. rewrite Hb. cbn [obind].
    destruct (elem_matches x b) eqn:Ex.
    + destruct (IH (p + 1)) as [[He Hm] | [He Hm]].
      { intros a Ha. apply Hmap. lia. }
      * left. split; [exact He |]. apply matches_at_cons. split; [| exact Hm].
        intros v ->. cbn in Ex. apply byte_eqb_true in Ex. now subst.
      * right. split; [exact He |]. intros H. apply matches_at_cons in H. tauto.
    + right. split; [reflexivity |]. intros H. apply matches_at_cons in H.
      destruct H as [H _]. destruct x as [v|]; [| discriminate Ex].
      specialize (H v eq_refl). rewrite Hb in H. injection H as ->.
      cbn in Ex. rewrite byte_eqb_refl in Ex. discriminate.
Qed.

Lemma std_find_spec (fuel : nat) (first last : address) (v : byte) :
  first <= last -> mapped mem first last ->
  (Z.to_nat (last - first) < fuel)%nat ->
  exists r, std_find mem fuel first last v = Done r /\
            first <= r <= last /\
            (forall q, first <= q < r -> mem q <> Some v) /\
            (r < last -> mem r = Some v).
Proof.
  revert first. induction fuel as [|fuel IH]; intros first Hle Hmap Hfuel; [lia |].
  cbn [std_find]. destruct (Z.eqb_spec first last) as [-> | Hne].
  - exists last. repeat split; lia.
  - destruct (Hmap first ltac:(lia)) as [b Hb].
    unfold load. rewrite Hb. cbn [obind].
    destruct (Byte.eqb b v) eqn:Eb.
    + apply byte_eqb_true in Eb. subst b.
      exists first. repeat split; try lia. intros _. exact Hb.
    + destruct (IH (first + 1)) as (r & Hr & Hb1 & Hno & Hhit); try lia.
      { intros a Ha. apply Hmap. lia. }
      exists r. repeat split; try lia; [exact Hr | | exact Hhit].
      intros q Hq. destruct (Z.eq_dec q first) as [-> | Hq'].
      * rewrite Hb. intros [= ->].
        rewrite byte_eqb_refl in Eb. discriminate.
      * apply Hno. lia.
Qed.

End KernelFacts.

(** ** The reference search *)

Lemma first_match_skip (mem : memory) (adm : address -> Prop)
  (s : signature_view) (i j e : address) (r : option address) :
  i <= j ->
  (forall q, i <= q < j -> adm q -> ~ matches_at mem s q) ->
  first_match mem adm s j e r ->
  first_match mem adm s i e r.
Proof.
  intros Hij Hno Hr. destruct r as [p|]; cbn in *.
  - destruct Hr as (Hjp & Hpe & Hpa & Hm & Hfirst).
    repeat split; try assumption; try lia.
    intros q Hq Hqa. destruct (Z.lt_ge_cases q j); [apply Hno | apply Hfirst]; auto; lia.
  - intros q Hq Hqe Hqa.
    destruct (Z.lt_ge_cases q j); [apply Hno | apply Hr]; auto; lia.
Qed.

Lemma first_match_unique (mem : memory) (adm : address -> Prop)
  (s : signature_view) (b e : address) (r1 r2 : option address) :
  first_match mem adm s b e r1 -> first_match mem adm s b e r2 -> r1 = r2.
Proof.
  destruct r1 as [p1|], r2 as [p2|]; cbn; intros H1 H2; try reflexivity.
  - destruct H1 as (Hb1 & He1 & Ha1 & Hm1 & Hf1).
    destruct H2 as (Hb2 & He2 & Ha2 & Hm2 & Hf2).
    f_equal. destruct (Z.lt_trichotomy p1 p2) as [Hlt | [Heq | Hgt]]; [| exact Heq |].
    + exfalso. apply (Hf2 p1); auto; lia.
    + exfalso. apply (Hf1 p2); auto; lia.
  - destruct H1 as (Hb1 & He1 & Ha1 & Hm1 & _). exfalso. now apply (H2 p1).
  - destruct H2 as (Hb2 & He2 & Ha2 & Hm2 & _). exfalso. now apply (H1 p2).
Qed.

Lemma matches_at_head (mem : memory) (v : byte) (rest : signature_view)
  (p : address) :
  matches_at mem (Some v :: rest) p -> mem p = Some v.
Proof.
  intros H. apply matches_at_cons in H. destruct H as [H _]. now apply H.
Qed.

Section ScalarKernels.

Variable mem : memory.

(** The stride-1 loop, entered at [i], answers the reference search on
    [[i, e)]. *)
Lemma FastFirst_X1_loop_spec (fuel : nat) (consteval : bool) (v : byte)
  (rest : signature_view) (e i : address) :
  i <= e - size (Some v :: rest) + 1 ->
  mapped mem i e ->
  (Z.to_nat (e - size (Some v :: rest) + 1 - i) < fuel)%nat ->
  exists r,
    FastFirst_X1_loop mem fuel consteval (Some v :: rest) v
      (e - size (Some v :: rest) + 1) i = Done r /\
    first_match mem (multiple_of 1) (Some v :: rest) i e r.
Proof.
  set (s := Some v :: rest). set (scanEnd := e - size s + 1).
  assert (Hsz : size s = size rest + 1) by apply size_cons.
  pose proof (size_nonneg rest) as Hrest.
  revert i. induction fuel as [|fuel IH]; intros i Hle Hmap Hfuel; [lia |].
  cbn [FastFirst_X1_loop]. destruct (Z.eqb_spec i scanEnd) as [Heq | Hne].
  - exists None. split; [reflexivity |]. cbn [first_match]. intros q Hq Hqe _. lia.
  - assert (Hfind : (if consteval
                     then std_find mem (find_budget i scanEnd) i scanEnd v
                     else std_find_unseq mem (find_budget i scanEnd) i scanEnd v)
                    = std_find mem (find_budget i scanEnd) i scanEnd v)
      by (destruct consteval; reflexivity).
    rewrite Hfind. clear Hfind.
    destruct (std_find_spec mem (find_budget i scanEnd) i scanEnd v)
      as (i1 & Hi1 & Hb1 & Hno & Hhit); try lia.
    { intros a Ha. apply Hmap. lia. }
    { unfold find_budget. lia. }
    rewrite Hi1. cbn [obind].
    assert (Hskip : forall q, i <= q < i1 -> multiple_of 1 q -> ~ matches_at mem s q).
    { intros q Hq _ Hm. apply matches_at_head in Hm. now apply (Hno q). }
    destruct (Z.eqb_spec i1 scanEnd) as [Heq1 | Hne1].
    + exists None. split; [reflexivity |]. cbn [first_match]. intros q Hq Hqe Hqa.
      apply Hskip; [lia | exact Hqa].
    + cbn [tl s].
      destruct (std_equal_decides mem rest (i1 + 1)) as [[He Hm] | [He Hm]].
      { intros a Ha. apply Hmap. lia. }
      * rewrite He. cbn [obind]. exists (Some i1). split; [reflexivity |].
        cbn [first_match]. repeat split; try lia; [apply Z.mod_1_r | | exact Hskip].
        apply matches_at_cons. split; [| exact Hm].
        intros v' [= <-]. apply Hhit. lia.
      * rewrite He. cbn [obind].
        destruct (IH (i1 + 1)) as (r & Hr & Hfm); try lia.
        { intros a Ha. apply Hmap. lia. }
        exists r. split; [exact Hr |].
        apply first_match_skip with (j := i1 + 1); [lia | | exact Hfm].
        intros q Hq Hqa. destruct (Z.eq_dec q i1) as [-> | Hq1].
        -- intros H. apply matches_at_cons in H. tauto.
        -- apply Hskip; [lia | exact Hqa].
Qed.

(** The stride-1 kernel answers the reference search on a mapped range
    that can hold the signature. *)
Lemma find_pattern_FastFirst_X1_spec (consteval : bool) (b e : address)
  (ctx : scan_fields) (v : byte) (rest : signature_view) :
  signature ctx = Some v :: rest ->
  size (signature ctx) <= e - b ->
  mapped mem b e ->
  exists r,
    find_pattern_FastFirst_X1 mem consteval b e ctx = Done r /\
    first_match mem (multiple_of 1) (signature ctx) b e r.
Proof.
  intros Hsig Hlen Hmap. unfold find_pattern_FastFirst_X1.
  rewrite Hsig in *. cbn [deref_first obind].
  apply FastFirst_X1_loop_spec; [lia | exact Hmap | unfold find_budget; lia].
Qed.

(** The stride-16 loop, entered at an aligned [i] with an aligned
    [scanEnd], answers the reference search among the aligned starts
    below [scanEnd]. *)
Lemma FastFirst_X16_loop_spec (fuel : nat) (v : byte) (rest : signature_view)
  (scanEnd e i : address) :
  i mod 16 = 0 -> scanEnd mod 16 = 0 -> i <= scanEnd ->
  scanEnd <= e - size (Some v :: rest) + 1 ->
  mapped mem i e ->
  (Z.to_nat ((scanEnd - i) / 16) < fuel)%nat ->
  exists r,
    FastFirst_X16_loop mem fuel (Some v :: rest) v scanEnd i = Done r /\
    first_match mem (multiple_of 16) (Some v :: rest) i (scanEnd + size (Some v :: rest) - 1) r.
Proof.
  set (s := Some v :: rest).
  assert (Hsz : size s = size rest + 1) by apply size_cons.
  pose proof (size_nonneg rest) as Hrest.
  intros Hia Hea. revert i Hia.
  induction fuel as [|fuel IH]; intros i Hia Hle Hend Hmap Hfuel; [lia |].
  cbn [FastFirst_X16_loop]. destruct (Z.eqb_spec i scanEnd) as [Heq | Hne].
  - exists None. split; [reflexivity |]. cbn [first_match]. intros q Hq Hqe _. lia.
  - assert (Hstep : i + 16 <= scanEnd) by (apply aligned_gap; auto; lia).
    assert (Hnext : exists r,
               FastFirst_X16_loop mem fuel s v scanEnd (i + 16) = Done r /\
               first_match mem (multiple_of 16) s (i + 16) (scanEnd + size s - 1) r).
    { apply IH; try lia.
      - replace (i + 16) with (i + 1 * 16) by lia.
        now rewrite Z_mod_plus_full.
      - intros a Ha. apply Hmap. lia.
      - replace (scanEnd - i) with (scanEnd - (i + 16) + 1 * 16) in Hfuel by lia.
        rewrite Z.div_add in Hfuel by lia.
        pose proof (Z.div_pos (scanEnd - (i + 16)) 16 ltac:(lia) ltac:(lia)). lia. }
    assert (Hgap : forall q, i < q < i + 16 -> q mod 16 = 0 -> False).
    { intros q Hq Hqa. pose proof (aligned_gap i q Hia Hqa ltac:(lia)). lia. }
    destruct (Hmap i ltac:(lia)) as [b Hb].
    unfold load. rewrite Hb. cbn [obind].
    destruct (Byte.eqb b v) eqn:Eb.
    + apply byte_eqb_true in Eb. subst b. cbn [tl s].
      destruct (std_equal_decides mem rest (i + 1)) as [[He Hm] | [He Hm]].
      { intros a Ha. apply Hmap. lia. }
      * rewrite He. cbn [obind]. exists (Some i). split; [reflexivity |].
        cbn [first_match]. repeat split; try lia; try exact Hia.
        apply matches_at_cons. split; [| exact Hm]. now intros v' [= <-].
      * rewrite He. cbn [obind]. destruct Hnext as (r & Hr & Hfm).
        exists r. split; [exact Hr |].
        apply first_match_skip with (j := i + 16); [lia | | exact Hfm].
        intros q Hq Hqa. destruct (Z.eq_dec q i) as [-> | Hqi].
        -- intros H. apply matches_at_cons in H. tauto.
        -- exfalso. apply (Hgap q); [lia | exact Hqa].
    + destruct Hnext as (r & Hr & Hfm).
      exists r. split; [exact Hr |].
      apply first_match_skip with (j := i + 16); [lia | | exact Hfm].
      intros q Hq Hqa. destruct (Z.eq_dec q i) as [-> | Hqi].
      * intros H. apply matches_at_head in H. rewrite Hb in H.
        injection H as ->. rewrite byte_eqb_refl in Eb. discriminate.
      * exfalso. apply (Hgap q); [lia | exact Hqa].
Qed.

(** What the stride-16 kernel computes: the reference search among the
    16-aligned starts of [[b, scanEnd)], with [scanEnd] the exclusive
    bound [e - |signature| + 1] rounded down to a multiple of 16. *)
Lemma find_pattern_FastFirst_X16_spec (b e : address) (ctx : scan_fields)
  (v : byte) (rest : signature_view) :
  signature ctx = Some v :: rest ->
  mapped mem b e ->
  exists r,
    find_pattern_FastFirst_X16 mem b e ctx = Done r /\
    first_match mem (multiple_of 16) (signature ctx) b
      (prev_boundary_align X16 (e - size (signature ctx) + 1)
       + size (signature ctx) - 1) r.
Proof.
  intros Hsig Hmap. unfold find_pattern_FastFirst_X16.
  rewrite Hsig in *. cbn [deref_first obind].
  set (s := Some v :: rest).
  destruct (next_boundary_align_X16_spec b) as [Hn Hna].
  destruct (prev_boundary_align_X16_spec (e - size s + 1)) as [Hp Hpa].
  set (scanBegin := next_boundary_align X16 b) in *.
  set (scanEnd := prev_boundary_align X16 (e - size s + 1)) in *.
  assert (Hlow : forall q, b <= q < scanBegin -> multiple_of 16 q ->
                           ~ matches_at mem s q).
  { intros q Hq Hqa _.
    pose proof (next_boundary_align_X16_least b q ltac:(lia) Hqa) as Hmin.
    fold scanBegin in Hmin. lia. }
  destruct (Z.leb_spec scanEnd scanBegin) as [Hempty | Hnonempty].
  - exists None. split; [reflexivity |]. cbn [first_match]. intros q Hq Hqe Hqa Hm.
    apply (Hlow q); [lia | exact Hqa | exact Hm].
  - destruct (FastFirst_X16_loop_spec
                (S (Z.to_nat ((scanEnd - scanBegin) / 16))) v rest scanEnd e
                scanBegin) as (r & Hr & Hfm); try (fold s; lia); try assumption.
    { intros a Ha. apply Hmap. lia. }
    exists r. split; [exact Hr |].
    apply first_match_skip with (j := scanBegin); [lia | exact Hlow | exact Hfm].
Qed.

End ScalarKernels.


(** Both scalar kernels at once: on a mapped range that can hold the
    signature, the kernel for [al] answers the reference search among the
    multiples of the stride below its bound. *)
Lemma scalar_kernel_spec (c : bool) (al : scan_alignment) (mem : memory)
  (b e : address) (ctx : scan_fields) (v : byte) (rest : signature_view) :
  signature ctx = Some v :: rest ->
  size (signature ctx) <= e - b ->
  mapped mem b e ->
  exists r,
    find_pattern_FastFirst c al mem b e ctx = Done r /\
    first_match mem (multiple_of (alignment_stride al)) (signature ctx) b
      (kernel_bound al (signature ctx) e) r.
Proof.
  intros Hsig Hlen Hmap. destruct al; cbn [find_pattern_FastFirst kernel_bound
                                            alignment_stride].
  - now apply find_pattern_FastFirst_X1_spec with (v := v) (rest := rest).
  - now apply find_pattern_FastFirst_X16_spec with (v := v) (rest := rest).
Qed.

(** A hit of the stride-16 loop is the cursor plus a multiple of 16; this
    needs nothing of the memory. *)
Lemma FastFirst_X16_loop_aligned (mem : memory) (fuel : nat)
  (s : signature_view) (v : byte) (scanEnd i p : address) :
  i mod 16 = 0 ->
  FastFirst_X16_loop mem fuel s v scanEnd i = Done (Some p) ->
  p mod 16 = 0.
Proof.
  revert i. induction fuel as [|fuel IH]; intros i Hi; cbn [FastFirst_X16_loop];
    [discriminate |].
  assert (Hi' : (i + 16) mod 16 = 0).
  { replace (i + 16) with (i + 1 * 16) by lia. now rewrite Z_mod_plus_full. }
  destruct (i =? scanEnd); [discriminate |].
  destruct (load mem i) as [b | |]; cbn [obind]; try discriminate.
  destruct (Byte.eqb b v); [| now apply IH].
  destruct (std_equal mem (tl s) (i + 1) elem_matches) as [[|] | |];
    cbn [obind]; try discriminate.
  - intros [= <-]. exact Hi.
  - now apply IH.
Qed.

Lemma scalar_kernel_aligned (c : bool) (al : scan_alignment) (mem : memory)
  (b e : address) (ctx : scan_fields) (p : address) :
  find_pattern_FastFirst c al mem b e ctx = Done (Some p) ->
  p mod alignment_stride al = 0.
Proof.
  destruct al; cbn [find_pattern_FastFirst alignment_stride].
  - intros _. apply Z.mod_1_r.
  - unfold find_pattern_FastFirst_X16.
    destruct (deref_first (signature ctx)) as [v | |]; cbn [obind]; try discriminate.
    destruct (_ <=? _); [discriminate |].
    apply FastFirst_X16_loop_aligned.
    apply next_boundary_align_X16_spec.
Qed.

(** ** The dispatcher *)

Lemma create_consteval (rs : scan_alignment -> scan_function_t * Z)
  (ah : scan_context -> scan_context) (al : scan_alignment)
  (sig : signature_view) (h : scan_hint) :
  create rs ah true al sig h =
  {| fields := {| signature := sig; alignment := al; vectorSize := 0; hints := h |};
     scanner := find_pattern_FastFirst true al |}.
Proof.
  reflexivity.
Qed.

Lemma consteval_selects_scalar (rs : scan_alignment -> scan_function_t * Z)
  (ah : scan_context -> scan_context) :
  selects_scalar rs ah true.
Proof.
  intros al sig h. split; [reflexivity | now exists true].
Qed.

Lemma fallback_selects_scalar (consteval : bool) :
  selects_scalar resolve_scalar apply_no_hints consteval.
Proof.
  intros al sig h. destruct consteval; (split; [reflexivity |]);
    [now exists true | now exists false].
Qed.

(** ** Find-first, unfolded *)

Lemma ptr_add_result (r : scan_result_base) (d : Z) :
  (if has_result r then ptr_add (get r) d else None) = ptr_add r d.
Proof.
  now destruct r.
Qed.

Lemma find_pattern_unfold (rs : scan_alignment -> scan_function_t * Z)
  (ah : scan_context -> scan_context) (ce : bool) (mem : memory)
  (al : scan_alignment) (beginIt endIt : address) (sig : signature_view)
  (h : scan_hint) :
  find_pattern rs ah ce mem al beginIt endIt sig h =
  let offset := Z.of_nat (truncate_offset sig) in
  let trunc := subspan sig (truncate_offset sig) in
  let ctx := create rs ah ce al trunc h in
  if (endIt <=? beginIt + offset) || (to_size_t (endIt - (beginIt + offset)) <? size trunc)
  then ([], Done None)
  else ([EvScan (beginIt + offset) endIt],
        r <- scanner ctx mem (beginIt + offset) endIt (fields ctx) ;;
        Done (ptr_add r (- offset))).
Proof.
  unfold find_pattern, truncate. cbv zeta.
  destruct (_ || _); [reflexivity |].
  unfold scan, tbind, tret.
  destruct (scanner _ mem _ _ _) as [r | |]; cbn [obind]; try reflexivity.
  now rewrite ptr_add_result.
Qed.

Lemma to_size_t_small (z : Z) : 0 <= z < 2 ^ 64 -> to_size_t z = z.
Proof.
  intros H. unfold to_size_t. now apply Z.mod_small.
Qed.

Lemma to_size_t_le (z : Z) : 0 <= z -> to_size_t z <= z.
Proof.
  intros H. unfold to_size_t. apply Z.mod_le; lia.
Qed.

(** C5: when [begin > end], or when the range left after the leading
    wildcards is shorter than the truncated signature, find-first answers
    null; the log of the call is empty, so no kernel was entered, and the
    answer does not depend on the memory, so no byte was read. *)
Theorem C5_invalid_range_is_null :
  forall (rs : scan_alignment -> scan_function_t * Z)
         (ah : scan_context -> scan_context) (ce : bool) (mem : memory)
         (al : scan_alignment) (beginIt endIt : address)
         (sig : signature_view) (h : scan_hint),
    endIt < beginIt \/
    endIt - (beginIt + Z.of_nat (truncate_offset sig))
      < size (subspan sig (truncate_offset sig)) ->
    find_pattern rs ah ce mem al beginIt endIt sig h = ([], Done None).
Proof.
  intros rs ah ce mem al beginIt endIt sig h Hbad.
  rewrite find_pattern_unfold. cbv zeta.
  set (offset := Z.of_nat (truncate_offset sig)) in *.
  set (trunc := subspan sig (truncate_offset sig)) in *.
  destruct (Z.leb_spec endIt (beginIt + offset)) as [Hle | Hgt]; [reflexivity |].
  cbn [orb].
  destruct (Z.ltb_spec (to_size_t (endIt - (beginIt + offset))) (size trunc))
    as [Hlt | Hge]; [reflexivity |].
  exfalso. pose proof (to_size_t_le (endIt - (beginIt + offset)) ltac:(lia)).
  subst offset. lia.
Qed.

(** A call of C5's kind: one byte at address 16, a two-byte signature. *)
Lemma C5_invalid_range_is_null_witness :
  find_pattern resolve_scalar apply_no_hints false (mem_of 16 [x00]) X1 16 17
    [Some x01; Some x02] hint_none = ([], Done None).
Proof.
  apply C5_invalid_range_is_null. right. vm_compute. reflexivity.
Defined.

(** ** Find-first on the scalar kernels *)

Lemma first_match_admissible_iff (mem : memory) (adm adm' : address -> Prop)
  (s : signature_view) (b e : address) (r : option address) :
  (forall q, adm q <-> adm' q) ->
  first_match mem adm s b e r -> first_match mem adm' s b e r.
Proof.
  intros Hadm. destruct r as [p|]; cbn [first_match].
  - intros (Hb & He & Ha & Hm & Hf). repeat split; try assumption.
    + now apply Hadm.
    + intros q Hq Hqa. apply Hf; [exact Hq | now apply Hadm].
  - intros Hf q Hq Hqe Hqa. apply Hf; try assumption. now apply Hadm.
Qed.

(** A search for the truncated signature from [b + n] is a search for the
    whole signature from [b], with [n] taken off the answer. *)
Lemma first_match_truncate (mem : memory) (adm : address -> Prop) (n : nat)
  (trunc : signature_view) (b e : address) (r : option address) :
  first_match mem adm trunc (b + Z.of_nat n) e r ->
  first_match mem (fun p => adm (p + Z.of_nat n)) (repeat None n ++ trunc) b e
    (ptr_add r (- Z.of_nat n)).
Proof.
  assert (Hsz : size (repeat None n ++ trunc) = Z.of_nat n + size trunc).
  { unfold size. rewrite length_app, repeat_length. apply Nat2Z.inj_add. }
  destruct r as [p|]; cbn [first_match ptr_add option_map].
  - intros (Hb & He & Ha & Hm & Hf).
    replace (p + - Z.of_nat n + Z.of_nat n) with p by lia.
    repeat split; try assumption; try lia.
    + apply matches_at_wildcards.
      now replace (p + - Z.of_nat n + Z.of_nat n) with p by lia.
    + intros q Hq Hqa Hqm. apply matches_at_wildcards in Hqm.
      apply (Hf (q + Z.of_nat n)); [lia | exact Hqa | exact Hqm].
  - intros Hf q Hq Hqe Hqa Hqm. apply matches_at_wildcards in Hqm.
    apply (Hf (q + Z.of_nat n)); [lia | lia | exact Hqa | exact Hqm].
Qed.

Section FindFirst.

Variable rs : scan_alignment -> scan_function_t * Z.
Variable ah : scan_context -> scan_context.
Variable ce : bool.
Variable mem : memory.
Hypothesis Hscalar : selects_scalar rs ah ce.

(** The kernel stored by a scalar dispatcher, run on a range it accepts. *)
Lemma scalar_scan_spec (al : scan_alignment) (b e : address) (v : byte)
  (rest : signature_view) (h : scan_hint) :
  size (Some v :: rest) <= e - b ->
  mapped mem b e ->
  let ctx := create rs ah ce al (Some v :: rest) h in
  exists r,
    scanner ctx mem b e (fields ctx) = Done r /\
    first_match mem (multiple_of (alignment_stride al)) (Some v :: rest) b
      (kernel_bound al (Some v :: rest) e) r.
Proof.
  intros Hlen Hmap ctx.
  destruct (Hscalar al (Some v :: rest) h) as [Hsig [c Hc]].
  fold ctx in Hsig, Hc. rewrite Hc.
  destruct (scalar_kernel_spec c al mem b e (fields ctx) v rest)
    as (r & Hr & Hfm); try assumption; try (rewrite Hsig; assumption).
  exists r. split; [exact Hr |]. now rewrite Hsig in Hfm.
Qed.

(** Find-first with the scalar kernels, on a mapped range inside the
    address space and a signature with [n] leading wildcards: it ends, and
    its answer is the reference search for the signature among the starts
    whose truncated part begins on a multiple of the stride, below the
    bound of the kernel. *)
Lemma find_pattern_scalar_spec (al : scan_alignment) (beginIt endIt : address)
  (n : nat) (v : byte) (rest : signature_view) (h : scan_hint) :
  mapped mem beginIt endIt -> 0 <= beginIt -> endIt < 2 ^ 64 ->
  exists t r,
    find_pattern rs ah ce mem al beginIt endIt (repeat None n ++ Some v :: rest) h
    = (t, Done r) /\
    first_match mem
      (fun p => multiple_of (alignment_stride al) (p + Z.of_nat n))
      (repeat None n ++ Some v :: rest) beginIt
      (kernel_bound al (Some v :: rest) endIt) r.
Proof.
  intros Hmap Hlo Hhi. rewrite find_pattern_unfold.
  pose proof (truncate_wildcards n v rest) as Htr. unfold truncate in Htr.
  injection Htr as Hoff Htrunc. rewrite Htrunc, Hoff. cbv zeta.
  set (s := Some v :: rest) in *.
  assert (Hsz : size s = size rest + 1) by apply size_cons.
  pose proof (size_nonneg rest) as Hrest.
  assert (Hfull : size (repeat None n ++ s) = Z.of_nat n + size s).
  { unfold size. rewrite length_app, repeat_length. apply Nat2Z.inj_add. }
  assert (Hbound : kernel_bound al s endIt <= endIt).
  { destruct al; cbn [kernel_bound]; [lia |].
    pose proof (prev_boundary_align_X16_spec (endIt - size s + 1)). lia. }
  assert (Hnone : endIt - (beginIt + Z.of_nat n) < size s ->
                  first_match mem
                    (fun p => multiple_of (alignment_stride al) (p + Z.of_nat n))
                    (repeat None n ++ s) beginIt (kernel_bound al s endIt) None).
  { intros Hshort. cbn [first_match]. intros q Hq Hqe _. lia. }
  destruct (Z.leb_spec endIt (beginIt + Z.of_nat n)) as [Hle | Hgt].
  - exists [], None. split; [reflexivity |]. apply Hnone. lia.
  - cbn [orb]. rewrite to_size_t_small by lia.
    destruct (Z.ltb_spec (endIt - (beginIt + Z.of_nat n)) (size s)) as [Hlt | Hge].
    + exists [], None. split; [reflexivity |]. now apply Hnone.
    + destruct (scalar_scan_spec al (beginIt + Z.of_nat n) endIt v rest h)
        as (r & Hr & Hfm); [exact Hge | intros a Ha; apply Hmap; lia |].
      fold s in Hr, Hfm. rewrite Hr. cbn [obind].
      exists [EvScan (beginIt + Z.of_nat n) endIt], (ptr_add r (- Z.of_nat n)).
      split; [reflexivity |]. now apply first_match_truncate.
Qed.

End FindFirst.

(** Find-first with stride 1 is the byte-by-byte reference: on a mapped
    range and a signature with a concrete element after its leading
    wildcards, it ends without a fault and returns the lowest start of the
    range at which the whole signature matches, or null when there is
    none. *)
Theorem find_first_X1_is_reference :
  forall (rs : scan_alignment -> scan_function_t * Z)
         (ah : scan_context -> scan_context) (ce : bool) (mem : memory)
         (beginIt endIt : address) (n : nat) (v : byte)
         (rest : signature_view) (h : scan_hint),
    selects_scalar rs ah ce ->
    mapped mem beginIt endIt -> 0 <= beginIt -> endIt < 2 ^ 64 ->
    exists t r,
      find_pattern rs ah ce mem X1 beginIt endIt (repeat None n ++ Some v :: rest) h
      = (t, Done r) /\
      first_match mem (fun _ => True) (repeat None n ++ Some v :: rest)
        beginIt endIt r.
Proof.
  intros rs ah ce mem beginIt endIt n v rest h Hsc Hmap Hlo Hhi.
  destruct (find_pattern_scalar_spec rs ah ce mem Hsc X1 beginIt endIt n v rest h)
    as (t & r & Hrun & Hfm); try assumption.
  exists t, r. split; [exact Hrun |].
  cbn [kernel_bound alignment_stride] in Hfm.
  revert Hfm. apply first_match_admissible_iff.
  intros q. unfold multiple_of. rewrite Z.mod_1_r. tauto.
Qed.

Lemma kernel_bound_le (al : scan_alignment) (s : signature_view) (e : address) :
  kernel_bound al s e <= e.
Proof.
  destruct al; cbn [kernel_bound]; [lia |].
  pose proof (prev_boundary_align_X16_spec (e - size s + 1)). lia.
Qed.

(** C4: the leading-wildcard truncation law, for both strides on the scalar
    kernels.  When find-first for a concrete-headed tail answers [q] and
    [q - n] is still inside the range, the kernel run for the signature with
    [n] wildcards in front (on the tail, from [begin + n]) hits [q] as well,
    and the entry point returns that hit minus the [n] leading wildcards. *)
Theorem C4_leading_wildcard_truncation :
  forall (rs : scan_alignment -> scan_function_t * Z)
         (ah : scan_context -> scan_context) (ce : bool) (mem : memory)
         (al : scan_alignment) (beginIt endIt : address) (n : nat) (v : byte)
         (rest : signature_view) (h : scan_hint) (q : address),
    selects_scalar rs ah ce ->
    mapped mem beginIt endIt -> 0 <= beginIt -> endIt < 2 ^ 64 ->
    snd (find_pattern rs ah ce mem al beginIt endIt (Some v :: rest) h)
    = Done (Some q) ->
    beginIt <= q - Z.of_nat n ->
    let ctx := create rs ah ce al (Some v :: rest) h in
    scanner ctx mem (beginIt + Z.of_nat n) endIt (fields ctx) = Done (Some q) /\
    find_pattern rs ah ce mem al beginIt endIt (repeat None n ++ Some v :: rest) h
    = ([EvScan (beginIt + Z.of_nat n) endIt], Done (Some (q - Z.of_nat n))).
Proof.
  intros rs ah ce mem al beginIt endIt n v rest h q Hsc Hmap Hlo Hhi Htail Hin ctx.
  set (s := Some v :: rest) in *.
  assert (Hsz : size s = size rest + 1) by apply size_cons.
  pose proof (size_nonneg rest) as Hrest.
  pose proof (kernel_bound_le al s endIt) as Hbound.
  destruct (find_pattern_scalar_spec rs ah ce mem Hsc al beginIt endIt 0 v rest h)
    as (t & r & Hrun & Hfm); try assumption.
  cbn [repeat app] in Hrun, Hfm. fold s in Hrun, Hfm.
  rewrite Hrun in Htail. cbn [snd] in Htail. injection Htail as ->.
  cbn [first_match] in Hfm. destruct Hfm as (Hb & He & Ha & Hm & Hf).
  rewrite Z.add_0_r in Ha.
  destruct (scalar_scan_spec rs ah ce mem Hsc al (beginIt + Z.of_nat n) endIt v rest h)
    as (r' & Hr' & Hfm'); [fold s; lia | intros a Hq; apply Hmap; lia |].
  fold s ctx in Hr', Hfm'.
  assert (Hq : first_match mem (multiple_of (alignment_stride al)) s
                 (beginIt + Z.of_nat n) (kernel_bound al s endIt) (Some q)).
  { cbn [first_match]. repeat split; try assumption; try lia.
    intros p Hp Hpa. apply Hf; [lia |]. now rewrite Z.add_0_r. }
  pose proof (first_match_unique _ _ _ _ _ _ _ Hfm' Hq) as ->.
  split; [exact Hr' |].
  rewrite find_pattern_unfold.
  pose proof (truncate_wildcards n v rest) as Htr. unfold truncate in Htr.
  injection Htr as Hoff Htrunc. fold s in Hoff, Htrunc.
  rewrite Htrunc, Hoff. cbv zeta. fold ctx.
  destruct (Z.leb_spec endIt (beginIt + Z.of_nat n)) as [Hle | Hgt]; [lia |].
  cbn [orb]. rewrite to_size_t_small by lia.
  destruct (Z.ltb_spec (endIt - (beginIt + Z.of_nat n)) (size s)) as [Hlt | Hge];
    [lia |].
  rewrite Hr'. cbn [obind ptr_add option_map]. now rewrite Z.add_opp_r.
Qed.

(** ** Find-all, one turn of the loop at a time *)

Lemma find_all_bounded_loop_step (mem : memory) (fuel : nat)
  (al : scan_alignment) (ctx : scan_context) (offset : nat)
  (trunc : signature_view) (e : address) (endOut : Z) (i : address) (out : Z) :
  find_all_bounded_loop mem (S fuel) al ctx offset trunc e endOut i out =
  if (i <? e) && negb (out =? endOut) && (size trunc <=? to_size_t (e - i))
  then
    match scanner ctx mem i e (fields ctx) with
    | Done (Some p) =>
        let next := find_all_bounded_loop mem fuel al ctx offset trunc e endOut
                      (p - Z.of_nat offset + alignment_stride al) (out + 1) in
        (EvScan i e :: EvOut (p - Z.of_nat offset) :: fst next, snd next)
    | Done None => ([EvScan i e], Done (e, out))
    | Fault => ([EvScan i e], Fault)
    | OutOfFuel => ([EvScan i e], OutOfFuel)
    end
  else ([], Done (i, out)).
Proof.
  cbn [find_all_bounded_loop]. destruct (_ && _); [| reflexivity].
  unfold scan, tbind, emit, tret.
  destruct (scanner ctx mem i e (fields ctx)) as [[p|] | |]; try reflexivity.
  cbv zeta.
  destruct (find_all_bounded_loop mem fuel al ctx offset trunc e endOut _ _)
    as [t [r | |]]; reflexivity.
Qed.

Lemma find_all_counted_loop_step (mem : memory) (fuel : nat)
  (al : scan_alignment) (ctx : scan_context) (offset : nat)
  (trunc : signature_view) (b e : address) (i : address) (matches : Z) :
  find_all_counted_loop mem (S fuel) al ctx offset trunc b e i matches =
  if (b <? e) && (size trunc <=? to_size_t (e - i))
  then
    match scanner ctx mem i e (fields ctx) with
    | Done (Some p) =>
        let next := find_all_counted_loop mem fuel al ctx offset trunc b e
                      (p - Z.of_nat offset + alignment_stride al)
                      (to_size_t (matches + 1)) in
        (EvScan i e :: EvOut (p - Z.of_nat offset) :: fst next, snd next)
    | Done None => ([EvScan i e], Done matches)
    | Fault => ([EvScan i e], Fault)
    | OutOfFuel => ([EvScan i e], OutOfFuel)
    end
  else ([], Done matches).
Proof.
  cbn [find_all_counted_loop]. destruct (_ && _); [| reflexivity].
  unfold scan, tbind, emit, tret.
  destruct (scanner ctx mem i e (fields ctx)) as [[p|] | |]; try reflexivity.
  cbv zeta.
  destruct (find_all_counted_loop mem fuel al ctx offset trunc b e _ _)
    as [t [r | |]]; reflexivity.
Qed.

Lemma find_all_pattern_trace (rs : scan_alignment -> scan_function_t * Z)
  (ah : scan_context -> scan_context) (ce : bool) (mem : memory) (fuel : nat)
  (al : scan_alignment) (beginIn endIn : address) (beginOut endOut : Z)
  (sig : signature_view) (h : scan_hint) :
  fst (find_all_pattern rs ah ce mem fuel al beginIn endIn beginOut endOut sig h) =
  fst (find_all_bounded_loop mem fuel al
         (create rs ah ce al (subspan sig (truncate_offset sig)) h)
         (truncate_offset sig) (subspan sig (truncate_offset sig)) endIn endOut
         (beginIn + Z.of_nat (truncate_offset sig)) beginOut).
Proof.
  unfold find_all_pattern, truncate, tbind, tret.
  destruct (find_all_bounded_loop _ _ _ _ _ _ _ _ _ _) as [t [[i out] | |]];
    cbn [fst]; try reflexivity.
  apply app_nil_r.
Qed.

(** ** Stride congruence *)

Lemma multiples_differ_by_multiple (s x y : Z) :
  x mod s = 0 -> y mod s = 0 -> (x - y) mod s = 0.
Proof.
  intros Hx Hy. rewrite Zminus_mod, Hx, Hy. apply Zmod_0_l.
Qed.

Lemma next_boundary_align_multiple (al : scan_alignment) (p : address) :
  next_boundary_align al p mod alignment_stride al = 0.
Proof.
  destruct al; cbn [alignment_stride].
  - apply Z.mod_1_r.
  - apply next_boundary_align_X16_spec.
Qed.

Section StrideCongruence.

Variable mem : memory.
Variable al : scan_alignment.
Variable ctx : scan_context.
Hypothesis Hctx : exists c, scanner ctx = find_pattern_FastFirst c al.

Lemma scalar_hit_multiple (b e p : address) :
  scanner ctx mem b e (fields ctx) = Done (Some p) ->
  p mod alignment_stride al = 0.
Proof.
  destruct Hctx as [c ->]. apply scalar_kernel_aligned.
Qed.

Lemma bounded_outputs_multiple (offset : nat) (trunc : signature_view)
  (e : address) (endOut : Z) (fuel : nat) (i : address) (out : Z) (a : address) :
  In a (outputs (fst (find_all_bounded_loop mem fuel al ctx offset trunc e endOut
                        i out))) ->
  (a + Z.of_nat offset) mod alignment_stride al = 0.
Proof.
  revert i out. induction fuel as [|fuel IH]; intros i out; [now cbn |].
  rewrite find_all_bounded_loop_step. destruct (_ && _); [| now cbn].
  destruct (scanner ctx mem i e (fields ctx)) as [[p|] | |] eqn:Hs;
    try (now cbn).
  cbv zeta. cbn [fst outputs flat_map app In]. intros [<- | Hin].
  - replace (p - Z.of_nat offset + Z.of_nat offset) with p by lia.
    now apply scalar_hit_multiple with (b := i) (e := e).
  - now apply IH in Hin.
Qed.

Lemma counted_outputs_multiple (offset : nat) (trunc : signature_view)
  (b e : address) (fuel : nat) (i : address) (matches : Z) (a : address) :
  In a (outputs (fst (find_all_counted_loop mem fuel al ctx offset trunc b e
                        i matches))) ->
  (a + Z.of_nat offset) mod alignment_stride al = 0.
Proof.
  revert i matches. induction fuel as [|fuel IH]; intros i matches; [now cbn |].
  rewrite find_all_counted_loop_step. destruct (_ && _); [| now cbn].
  destruct (scanner ctx mem i e (fields ctx)) as [[p|] | |] eqn:Hs;
    try (now cbn).
  cbv zeta. cbn [fst outputs flat_map app In]. intros [<- | Hin].
  - replace (p - Z.of_nat offset + Z.of_nat offset) with p by lia.
    now apply scalar_hit_multiple with (b := i) (e := e).
  - now apply IH in Hin.
Qed.

End StrideCongruence.

(** With the scalar kernels, when the number of leading wildcards of the
    signature is a multiple of the stride (so for every stride-1 scan and
    for every signature that starts with a concrete element), the address
    find-first returns and every address either find-all writes differ
    from the first stride-aligned start at or after [begin] by a multiple
    of the stride; and a hit of a scalar kernel differs by a multiple of
    the stride from the first multiple of the stride at or after its
    [begin]. *)
Theorem stride_congruence_aligned_offset :
  forall (rs : scan_alignment -> scan_function_t * Z)
         (ah : scan_context -> scan_context) (ce : bool) (mem : memory)
         (al : scan_alignment) (beginIt endIt : address)
         (sig : signature_view) (h : scan_hint),
    selects_scalar rs ah ce ->
    Z.of_nat (truncate_offset sig) mod alignment_stride al = 0 ->
    let s := alignment_stride al in
    let fc := first_candidate al beginIt in
    (forall a,
        snd (find_pattern rs ah ce mem al beginIt endIt sig h) = Done (Some a) ->
        (a - fc) mod s = 0) /\
    (forall fuel beginOut endOut a,
        In a (outputs (fst (find_all_pattern rs ah ce mem fuel al beginIt endIt
                              beginOut endOut sig h))) ->
        (a - fc) mod s = 0) /\
    (forall fuel a,
        In a (outputs (fst (find_all_pattern_counted rs ah ce mem fuel al beginIt
                              endIt sig h))) ->
        (a - fc) mod s = 0) /\
    (forall c b e ctx p,
        find_pattern_FastFirst c al mem b e ctx = Done (Some p) ->
        (p - next_boundary_align al b) mod s = 0).
Proof.
  intros rs ah ce mem al beginIt endIt sig h Hsc Hoff s fc.
  set (offset := truncate_offset sig) in *.
  set (trunc := subspan sig offset).
  destruct (Hsc al trunc h) as [_ Hctx].
  assert (Hshift : forall a, (a + Z.of_nat offset) mod s = 0 -> (a - fc) mod s = 0).
  { intros a Ha. unfold fc, first_candidate.
    apply multiples_differ_by_multiple; [| apply next_boundary_align_multiple].
    replace a with (a + Z.of_nat offset - Z.of_nat offset) by lia.
    now apply multiples_differ_by_multiple. }
  split; [| split; [| split]].
  - intros a. rewrite find_pattern_unfold. cbv zeta. fold offset trunc.
    destruct (_ || _); [discriminate |]. cbn [snd].
    destruct (scanner _ mem _ _ _) as [[p|] | |] eqn:Hs; cbn; try discriminate.
    intros [= <-]. apply Hshift.
    replace (p + - Z.of_nat offset + Z.of_nat offset) with p by lia.
    exact (scalar_hit_multiple mem al _ Hctx _ _ _ Hs).
  - intros fuel beginOut endOut a. rewrite find_all_pattern_trace.
    fold offset trunc. intros Hin. apply Hshift.
    exact (bounded_outputs_multiple mem al _ Hctx _ _ _ _ _ _ _ _ Hin).
  - intros fuel a. unfold find_all_pattern_counted, truncate. fold offset trunc.
    intros Hin. apply Hshift.
    exact (counted_outputs_multiple mem al _ Hctx _ _ _ _ _ _ _ _ Hin).
  - intros c b e ctx p Hp. apply multiples_differ_by_multiple.
    + exact (scalar_kernel_aligned c al mem b e ctx p Hp).
    + apply next_boundary_align_multiple.
Qed.

(** ** Concrete runs *)

Lemma mem_of_mapped (base : address) (data : list byte) :
  mapped (mem_of base data) base (base + Z.of_nat (length data)).
Proof.
  intros a Ha. unfold mem_of.
  destruct (Z.leb_spec base a); [| lia].
  destruct (Z.ltb_spec a (base + Z.of_nat (length data))); [| lia].
  cbn [andb].
  destruct (nth_error data (Z.to_nat (a - base))) as [v|] eqn:E; [now exists v |].
  apply nth_error_None in E. lia.
Qed.

(** The leading-wildcard scenario of the specification: range
    [11 22 33 44] at address 16, signature [? ? 33]. *)
Lemma C4_leading_wildcard_truncation_witness :
  find_pattern resolve_scalar apply_no_hints false (mem_of 16 [x11; x22; x33; x44])
    X1 16 20 [None; None; Some x33] hint_none
  = ([EvScan 18 20], Done (Some 16)).
Proof.
  refine (proj2 (C4_leading_wildcard_truncation resolve_scalar apply_no_hints false
                   (mem_of 16 [x11; x22; x33; x44]) X1 16 20 2 x33 [] hint_none 18
                   (fallback_selects_scalar false) (mem_of_mapped 16 _) _ _ _ _)).
  - lia.
  - reflexivity.
  - vm_compute. reflexivity.
  - lia.
Defined.

(** A stride-16 hit: [DE AD] at address 16 of a 17-byte range. *)
Lemma stride_congruence_aligned_offset_witness :
  (16 - first_candidate X16 16) mod 16 = 0.
Proof.
  pose proof (stride_congruence_aligned_offset resolve_scalar apply_no_hints false
                (mem_of 16 (xde :: xad :: repeat x00 15)) X16 16 33
                [Some xde; Some xad] hint_none (fallback_selects_scalar false)
                eq_refl) as H.
  cbv zeta in H. destruct H as [H _]. apply H. vm_compute. reflexivity.
Defined.

(** The plain-match scenario of the specification: range [00 01 02 03 04]
    at address 16, signature [02 03]. *)
Lemma find_first_X1_is_reference_witness :
  exists t r,
    find_pattern resolve_scalar apply_no_hints false
      (mem_of 16 [x00; x01; x02; x03; x04]) X1 16 21 [Some x02; Some x03] hint_none
    = (t, Done r) /\
    first_match (mem_of 16 [x00; x01; x02; x03; x04]) (fun _ => True)
      [Some x02; Some x03] 16 21 r.
Proof.
  refine (find_first_X1_is_reference resolve_scalar apply_no_hints false
            (mem_of 16 [x00; x01; x02; x03; x04]) 16 21 0 x02 [Some x03] hint_none
            (fallback_selects_scalar false) (mem_of_mapped 16 _) _ _).
  - lia.
  - reflexivity.
Defined.

(** ** Relative addresses *)

Lemma byte_val_range (b : byte) : 0 <= byte_val b < 2 ^ 8.
Proof.
  unfold byte_val. pose proof (Byte.to_N_bounded b) as H.
  change (2 ^ 8) with 256. lia.
Qed.

Lemma testbit_small (a n : Z) : 0 <= a < 2 ^ n -> 0 <= n -> Z.testbit a n = false.
Proof.
  intros [Ha Hlt] Hn. destruct (Z.eq_dec a 0) as [-> | Hne].
  - apply Z.bits_0.
  - apply Z.bits_above_log2; [exact Ha |]. apply Z.log2_lt_pow2; lia.
Qed.

Lemma lor_shiftl_8 (a h : Z) :
  0 <= a < 2 ^ 8 -> Z.lor a (Z.shiftl h 8) = a + 2 ^ 8 * h.
Proof.
  intros Ha.
  assert (Hdisj : Z.land a (Z.shiftl h 8) = 0).
  { apply Z.bits_inj'. intros n Hn. rewrite Z.land_spec, Z.bits_0.
    destruct (Z.lt_ge_cases n 8) as [Hlow | Hhigh].
    - rewrite Z.shiftl_spec_low by exact Hlow. apply andb_false_r.
    - rewrite (testbit_small a n); [reflexivity | | lia].
      split; [lia |]. apply Z.lt_le_trans with (2 ^ 8); [lia |].
      apply Z.pow_le_mono_r; lia. }
  rewrite <- Z.lxor_lor by exact Hdisj.
  rewrite <- Z.add_nocarry_lxor by exact Hdisj.
  rewrite Z.shiftl_mul_pow2 by lia. lia.
Qed.

Lemma load_le_4 (mem : memory) (a : address) (b0 b1 b2 b3 : byte) :
  mem a = Some b0 -> mem (a + 1) = Some b1 ->
  mem (a + 2) = Some b2 -> mem (a + 3) = Some b3 ->
  load_le mem 4 a = Done (le32 b0 b1 b2 b3).
Proof.
  intros H0 H1 H2 H3. cbn [load_le]. unfold load.
  replace (a + 1 + 1) with (a + 2) by lia.
  replace (a + 2 + 1) with (a + 3) by lia.
  rewrite H0, H1, H2, H3. cbn [obind]. f_equal.
  fold (byte_val b0) (byte_val b1) (byte_val b2) (byte_val b3).
  rewrite !lor_shiftl_8 by apply byte_val_range.
  unfold le32. change (2 ^ 16) with (2 ^ 8 * 2 ^ 8).
  change (2 ^ 24) with (2 ^ 8 * (2 ^ 8 * 2 ^ 8)). lia.
Qed.

Lemma le32_range (b0 b1 b2 b3 : byte) : 0 <= le32 b0 b1 b2 b3 < 2 ^ 32.
Proof.
  pose proof (byte_val_range b0). pose proof (byte_val_range b1).
  pose proof (byte_val_range b2). pose proof (byte_val_range b3).
  unfold le32. change (2 ^ 8) with 256 in *. change (2 ^ 16) with 65536.
  change (2 ^ 24) with 16777216. change (2 ^ 32) with 4294967296. lia.
Qed.

Lemma as_signed_32 (u : Z) : 0 <= u < 2 ^ 32 -> as_signed 32 u = sext32 u.
Proof.
  intros Hu. unfold as_signed, sext32. change (32 - 1) with 31.
  destruct (Z.ltb_spec u (2 ^ 31)) as [Hlt | Hge].
  - rewrite testbit_small; [reflexivity | lia | lia].
  - assert (Ht : Z.testbit u 31 = true).
    { apply Z.testbit_true; [lia |].
      assert (u / 2 ^ 31 = 1) as ->; [| reflexivity].
      symmetry. apply Z.div_unique with (r := u - 2 ^ 31); [| lia].
      left. change (2 ^ 32) with (2 * 2 ^ 31) in Hu. lia. }
    now rewrite Ht.
Qed.

Lemma ptr_add64_chain (p d k n : Z) :
  ptr_add64 (ptr_add64 (ptr_add64 p d) k) n = (p + d + k + n) mod 2 ^ 64.
Proof.
  unfold ptr_add64, to_uintptr. rewrite Zplus_mod_idemp_l.
  rewrite <- (Z.add_assoc ((p + d) mod 2 ^ 64)), Zplus_mod_idemp_l.
  f_equal. lia.
Qed.

Lemma rel_at_bytes (mem : memory) (p : address) (k : Z) (b0 b1 b2 b3 : byte) :
  mem (p + k) = Some b0 -> mem (p + k + 1) = Some b1 ->
  mem (p + k + 2) = Some b2 -> mem (p + k + 3) = Some b3 ->
  rel mem (Some p) k
  = Done (to_pointer ((p + sext32 (le32 b0 b1 b2 b3) + k + 4) mod 2 ^ 64)).
Proof.
  intros H0 H1 H2 H3. unfold rel, read. cbn [rel_t int32_t int_bytes].
  rewrite (load_le_4 mem (p + k) b0 b1 b2 b3 H0 H1 H2 H3). cbn [obind].
  unfold reinterpret. cbn [int_signed].
  change (8 * sizeof {| int_bytes := 4; int_signed := true |}) with 32.
  rewrite as_signed_32 by apply le32_range.
  rewrite ptr_add64_chain. reflexivity.
Qed.

(** C6: on a result holding [p], with the four bytes at [p + k] readable
    inside the address space, [rel k] is the pointer
    [p + sext32 (those bytes) + k + 4] of 64-bit pointer arithmetic; when
    that sum is itself a non-null 64-bit address it is returned as it is;
    on a null result, [rel] is null, whatever the memory and the offset. *)
Theorem C6_rel_resolves_displacement :
  forall (mem : memory) (p : address) (k : Z) (b0 b1 b2 b3 : byte),
    0 < p -> 0 <= k -> p + k + 4 <= 2 ^ 64 ->
    mem (p + k) = Some b0 -> mem (p + k + 1) = Some b1 ->
    mem (p + k + 2) = Some b2 -> mem (p + k + 3) = Some b3 ->
    let target := p + sext32 (le32 b0 b1 b2 b3) + k + 4 in
    rel mem (Some p) k = Done (to_pointer (target mod 2 ^ 64)) /\
    (0 < target < 2 ^ 64 -> rel mem (Some p) k = Done (Some target)) /\
    (forall mem' k', rel mem' None k' = Done None).
Proof.
  intros mem p k b0 b1 b2 b3 Hp Hk Hin H0 H1 H2 H3 target.
  pose proof (rel_at_bytes mem p k b0 b1 b2 b3 H0 H1 H2 H3) as Hrel.
  fold target in Hrel. split; [exact Hrel |]. split; [| reflexivity].
  intros Ht. rewrite Hrel, Z.mod_small by lia. unfold to_pointer.
  destruct (Z.eqb_spec target 0); [lia | reflexivity].
Qed.

(** A call instruction [E8 FB FF FF FF] at address 32: displacement -5. *)
Lemma C6_rel_resolves_displacement_witness :
  rel (mem_of 32 [xe8; xfb; xff; xff; xff]) (Some 32) 1 = Done (Some 32).
Proof.
  refine (proj1 (proj2 (C6_rel_resolves_displacement
                          (mem_of 32 [xe8; xfb; xff; xff; xff]) 32 1
                          xfb xff xff xff _ _ _ _ _ _ _)) _);
    try reflexivity; vm_compute; try discriminate; split; reflexivity.
Defined.

(** ** Translation-time and run-time dispatch *)

Lemma fallback_meets_contract : runtime_contract_X1 resolve_scalar apply_no_hints.
Proof.
  intros sig h mem b e v rest ctx Hsig Hlen Hmap. subst sig.
  exact (find_pattern_FastFirst_X1_spec mem false b e (fields ctx) v rest
           eq_refl Hlen Hmap).
Qed.

(** C8: at translation time [scan_context::create] stores the scalar
    FastFirst kernel whatever the resolver and the hint pass are (neither
    is consulted), for either alignment; and for stride 1, the only stride
    whose scalar kernel can be evaluated at translation time, find-first
    then gives what it gives at run time, the run-time kernels being taken
    to meet the kernel contract of the specification. *)
Theorem C8_consteval_selects_scalar :
  forall (rs : scan_alignment -> scan_function_t * Z)
         (ah : scan_context -> scan_context) (mem : memory)
         (beginIt endIt : address) (n : nat) (v : byte)
         (rest : signature_view) (h : scan_hint),
    runtime_contract_X1 rs ah ->
    mapped mem beginIt endIt -> 0 <= beginIt -> endIt < 2 ^ 64 ->
    (forall rs' ah' al sig' h',
        create rs' ah' true al sig' h' =
        {| fields := {| signature := sig'; alignment := al; vectorSize := 0;
                        hints := h' |};
           scanner := find_pattern_FastFirst true al |}) /\
    find_pattern rs ah true mem X1 beginIt endIt (repeat None n ++ Some v :: rest) h
    = find_pattern rs ah false mem X1 beginIt endIt (repeat None n ++ Some v :: rest) h.
Proof.
  intros rs ah mem beginIt endIt n v rest h Hrt Hmap Hlo Hhi.
  split; [reflexivity |].
  rewrite !find_pattern_unfold.
  pose proof (truncate_wildcards n v rest) as Htr. unfold truncate in Htr.
  injection Htr as Hoff Htrunc. rewrite Htrunc, Hoff. cbv zeta.
  set (s := Some v :: rest) in *.
  destruct (Z.leb_spec endIt (beginIt + Z.of_nat n)) as [Hle | Hgt]; [reflexivity |].
  cbn [orb]. rewrite to_size_t_small by lia.
  destruct (Z.ltb_spec (endIt - (beginIt + Z.of_nat n)) (size s)) as [Hlt | Hge];
    [reflexivity |].
  assert (Hmap' : mapped mem (beginIt + Z.of_nat n) endIt).
  { intros a Ha. apply Hmap. lia. }
  destruct (scalar_scan_spec rs ah true mem (consteval_selects_scalar rs ah) X1
              (beginIt + Z.of_nat n) endIt v rest h Hge Hmap') as (r1 & Hr1 & Hf1).
  destruct (Hrt s h mem (beginIt + Z.of_nat n) endIt v rest eq_refl Hge Hmap')
    as (r2 & Hr2 & Hf2).
  fold s in Hr1, Hf1. cbn [kernel_bound alignment_stride] in Hf1.
  rewrite Hr1, Hr2. now rewrite (first_match_unique _ _ _ _ _ _ _ Hf1 Hf2).
Qed.

(** The wildcard-in-body scenario of the specification: range
    [AA BB CC DD EE] at address 16, signature [AA ? CC]. *)
Lemma C8_consteval_selects_scalar_witness :
  find_pattern resolve_scalar apply_no_hints true
    (mem_of 16 [xaa; xbb; xcc; xdd; xee]) X1 16 21 [Some xaa; None; Some xcc] hint_none
  = find_pattern resolve_scalar apply_no_hints false
      (mem_of 16 [xaa; xbb; xcc; xdd; xee]) X1 16 21 [Some xaa; None; Some xcc] hint_none.
Proof.
  refine (proj2 (C8_consteval_selects_scalar resolve_scalar apply_no_hints
                   (mem_of 16 [xaa; xbb; xcc; xdd; xee]) 16 21 0 xaa [None; Some xcc]
                   hint_none fallback_meets_contract (mem_of_mapped 16 _) _ _)).
  - lia.
  - reflexivity.
Defined.

(** ** Where the code leaves the specification *)

(** C3: the stride-16 kernel on the four bytes [AB AB AB AB] at address 16
    and the signature [AB AB].  Address 16 is a multiple of 16 inside
    [[begin, end - len + 1)] = [[16, 19)] and the signature matches there,
    yet the kernel returns null: it rounds the exclusive bound 19 down to
    16 and stops before the candidate at that address. *)
Theorem C3_X16_kernel_skips_last_candidate :
  let mem := mem_of 16 [xab; xab; xab; xab] in
  let ctx := {| signature := [Some xab; Some xab]; alignment := X16;
                vectorSize := 0; hints := hint_none |} in
  find_pattern_FastFirst_X16 mem 16 20 ctx = Done None /\
  next_boundary_align X16 16 = 16 /\
  16 < 20 - size (signature ctx) + 1 /\
  matches_at mem (signature ctx) 16.
Proof.
  cbv zeta. split; [reflexivity |]. split; [reflexivity |]. split; [reflexivity |].
  unfold matches_at. intros k v H.
  destruct k as [ | [ | [ | k ] ] ]; cbn in H; try discriminate H; now injection H as <-.
Qed.

(** C1: find-first with stride 16 on the same input, through the scalar
    kernel: the answer is null, although the byte-by-byte reference search
    among the multiples of 16 answers 16, and not null. *)
Theorem C1_find_first_X16_misses_match :
  let mem := mem_of 16 [xab; xab; xab; xab] in
  let sig := [Some xab; Some xab] in
  find_pattern resolve_scalar apply_no_hints false mem X16 16 20 sig hint_none
  = ([EvScan 16 20], Done None) /\
  first_match mem (multiple_of 16) sig 16 20 (Some 16) /\
  ~ first_match mem (multiple_of 16) sig 16 20 None.
Proof.
  cbv zeta.
  assert (Hm : matches_at (mem_of 16 [xab; xab; xab; xab]) [Some xab; Some xab] 16).
  { unfold matches_at. intros k v Hk.
    destruct k as [ | [ | [ | k ] ] ]; cbn in Hk; try discriminate Hk;
      now injection Hk as <-. }
  split; [reflexivity |]. split.
  - cbn [first_match]. split; [lia |]. split; [vm_compute; discriminate |].
    split; [reflexivity |]. split; [exact Hm | intros q Hq; lia].
  - cbn [first_match]. intros H.
    apply (H 16); [lia | vm_compute; discriminate | reflexivity | exact Hm].
Qed.

(** C2: the bounded find-all with stride 1 on [11 33 44] at address 16, the
    signature [? 33] and room for three results.  The only start at which
    the signature matches is 16; the loop writes it three times, because
    the cursor after a hit at [p] is [p - offset + 1], which is [p] again. *)
Theorem C2_find_all_repeats_match :
  let mem := mem_of 16 [x11; x33; x44] in
  let sig := [None; Some x33] in
  let run := find_all_pattern resolve_scalar apply_no_hints false mem 4 X1
               16 19 0 3 sig hint_none in
  outputs (fst run) = [16; 16; 16] /\
  snd run = Done (16, 3) /\
  scans (fst run) = [(17, 19); (17, 19); (17, 19)] /\
  forall p, 16 <= p -> p + size sig <= 19 -> matches_at mem sig p -> p = 16.
Proof.
  cbv zeta. split; [reflexivity |]. split; [reflexivity |]. split; [reflexivity |].
  intros p Hlo Hhi Hm. specialize (Hm 1%nat x33 eq_refl).
  change (size [None; Some x33]) with 2 in Hhi.
  assert (p = 16 \/ p = 17) as [-> | ->] by lia; [reflexivity |].
  discriminate Hm.
Qed.

(** C7: find-first with stride 16 over the range from 16 to 64 that holds
    [DE AD] at address 32, with the signature [? DE AD].  The first
    16-aligned start at or after [begin] is 16; the address returned is 31,
    where the signature does match, but 31 is 15 past a multiple of the
    stride: the kernel puts the first concrete element on a multiple of 16
    and the wildcard count is taken off afterwards. *)
Theorem C7_find_first_X16_off_stride :
  let mem := mem_of 16 (repeat x00 16 ++ xde :: xad :: repeat x00 30) in
  let sig := [None; Some xde; Some xad] in
  snd (find_pattern resolve_scalar apply_no_hints false mem X16 16 64 sig hint_none)
  = Done (Some 31) /\
  first_candidate X16 16 = 16 /\
  (31 - first_candidate X16 16) mod alignment_stride X16 = 15.
Proof.
  cbv zeta. split; [vm_compute; reflexivity |]. split; reflexivity.
Qed.

(** C10: the counted find-all with stride 1 on [11 33] at address 16 and the
    signature [? 33].  Whatever the step budget, the loop has not ended
    when the budget is spent, and it has written the address 16 once per
    step: after the hit at 17 the cursor is 17 again. *)
Theorem C10_counted_find_all_diverges :
  forall fuel : nat,
    let run := find_all_pattern_counted resolve_scalar apply_no_hints false
                 (mem_of 16 [x11; x33]) fuel X1 16 18 [None; Some x33] hint_none in
    snd run = OutOfFuel /\ outputs (fst run) = repeat 16 fuel.
Proof.
  intros fuel. cbv zeta. unfold find_all_pattern_counted.
  change (truncate [None; Some x33]) with (1%nat, [Some x33]). cbv iota beta.
  change (16 + Z.of_nat 1) with 17.
  set (ctx := create resolve_scalar apply_no_hints false X1 [Some x33] hint_none).
  generalize 0 as matches.
  induction fuel as [|fuel IH]; intros matches; [split; reflexivity |].
  rewrite find_all_counted_loop_step.
  change ((17 <? 18) && (size [Some x33] <=? to_size_t (18 - 17))) with true.
  cbv iota.
  change (scanner ctx (mem_of 16 [x11; x33]) 17 18 (fields ctx))
    with (@Done const_scan_result (Some 17)).
  cbv iota zeta.
  change (17 - Z.of_nat 1 + alignment_stride X1) with 17.
  change (17 - Z.of_nat 1) with 16.
  destruct (IH (to_size_t (matches + 1))) as [Hs Ho].
  cbn [fst snd]. split; [exact Hs |].
  cbn [outputs flat_map app repeat]. f_equal. exact Ho.
Qed.

(** ** Find-all with stride 1 on a signature without leading wildcards *)

Section FindAllConcreteHead.

Variable mem : memory.
Variable ctx : scan_context.
Variable v : byte.
Variable rest : signature_view.
Variable b e : address.

Hypothesis Hsig : signature (fields ctx) = Some v :: rest.
Hypothesis Hker : exists c, scanner ctx = find_pattern_FastFirst c X1.
Hypothesis Hmap : mapped mem b e.
Hypothesis Hlo : 0 <= b.
Hypothesis Hhi : e < 2 ^ 64.

Lemma concrete_head_scan (i : address) :
  b <= i -> size (Some v :: rest) <= e - i ->
  exists r,
    scanner ctx mem i e (fields ctx) = Done r /\
    first_match mem (multiple_of 1) (Some v :: rest) i e r.
Proof.
  intros Hi Hlen. destruct Hker as [c Hc]. rewrite Hc.
  destruct (scalar_kernel_spec c X1 mem i e (fields ctx) v rest)
    as (r & Hr & Hfm); try assumption.
  - now rewrite Hsig.
  - intros a Ha. apply Hmap. lia.
  - exists r. split; [exact Hr |]. now rewrite Hsig in Hfm.
Qed.

(** The counted loop from cursor [i] with [m] matches counted so far. *)
Lemma counted_loop_concrete_head (fuel : nat) (i : address) (m : Z) :
  b <= i <= e ->
  (Z.to_nat (e - i) < fuel)%nat ->
  0 <= m -> m + (e - i) < 2 ^ 64 ->
  exists t,
    find_all_counted_loop mem fuel X1 ctx 0 (Some v :: rest) b e i m
    = (t, Done (m + Z.of_nat (length (outputs t)))) /\
    StronglySorted Z.lt (outputs t) /\
    (forall a, In a (outputs t) <->
               i <= a /\ a + size (Some v :: rest) <= e /\
               matches_at mem (Some v :: rest) a) /\
    (forall x y, In (x, y) (scans t) ->
                 y = e /\ b <= x <= e /\ size (Some v :: rest) <= e - x).
Proof.
  set (s := Some v :: rest) in *.
  assert (Hsz : size s = size rest + 1) by apply size_cons.
  pose proof (size_nonneg rest) as Hrest.
  revert i m. induction fuel as [|fuel IH]; intros i m Hi Hfuel Hm Hwrap; [lia |].
  rewrite find_all_counted_loop_step. rewrite to_size_t_small by lia.
  assert (Hdone : size s > e - i \/ e <= b ->
            exists t, ([] : list event, Done m)
                      = (t, Done (m + Z.of_nat (length (outputs t)))) /\
                      StronglySorted Z.lt (outputs t) /\
                      (forall a, In a (outputs t) <->
                                 i <= a /\ a + size s <= e /\ matches_at mem s a) /\
                      (forall x y, In (x, y) (scans t) ->
                                   y = e /\ b <= x <= e /\ size s <= e - x)).
  { intros Hshort. exists []. cbn [outputs scans flat_map length].
    rewrite Z.add_0_r. split; [reflexivity |]. split; [constructor |].
    split; [| intros x y []].
    intros a. split; [intros [] | intros (Ha & Hae & _); lia]. }
  destruct (Z.ltb_spec b e) as [Hbe | Hbe]; [| apply Hdone; lia].
  destruct (Z.leb_spec (size s) (e - i)) as [Hlen | Hlen]; [| apply Hdone; lia].
  cbn [andb].
  destruct (concrete_head_scan i) as (r & Hr & Hfm); [lia | exact Hlen |].
  fold s in Hfm. rewrite Hr. destruct r as [p|]; cbn [first_match] in Hfm.
  - destruct Hfm as (Hip & Hpe & _ & Hpm & Hfirst).
    cbv zeta. cbn [alignment_stride].
    replace (p - Z.of_nat 0 + 1) with (p + 1) by lia.
    replace (p - Z.of_nat 0) with p by lia.
    rewrite (to_size_t_small (m + 1)) by lia.
    destruct (IH (p + 1) (m + 1)) as (t & Ht & Hsorted & Hin & Hscan); try lia.
    exists (EvScan i e :: EvOut p :: t). rewrite Ht. cbn [fst snd].
    cbn [outputs scans flat_map app length]. fold (outputs t) (scans t).
    split; [do 2 f_equal; lia |]. split; [| split].
    + constructor; [exact Hsorted |]. apply Forall_forall. intros a Ha.
      apply Hin in Ha. lia.
    + intros a. split.
      * intros [<- | Ha]; [| apply Hin in Ha]; (split; [lia | split]);
          try lia; try tauto.
      * intros (Ha & Hae & Ham).
        destruct (Z.lt_trichotomy a p) as [Hlt | [-> | Hgt]].
        -- exfalso. apply (Hfirst a); [lia | apply Z.mod_1_r | exact Ham].
        -- now left.
        -- right. apply Hin. repeat split; [lia | exact Hae | exact Ham].
    + intros x y [[= <- <-] | H]; [lia | apply Hscan in H; lia].
  - exists [EvScan i e]. cbn [outputs scans flat_map app length].
    rewrite Z.add_0_r. split; [reflexivity |]. split; [constructor |]. split.
    + intros a. split; [intros [] |]. intros (Ha & Hae & Ham). exfalso.
      apply (Hfm a); [exact Ha | exact Hae | apply Z.mod_1_r | exact Ham].
    + intros x y [[= <- <-] | []]. lia.
Qed.

(** The bounded loop from cursor [i] with output position [out]. *)
Lemma bounded_loop_concrete_head (fuel : nat) (endOut : Z) (i : address) (out : Z) :
  b <= i <= e ->
  out <= endOut ->
  (Z.to_nat (endOut - out) < fuel)%nat ->
  exists t i',
    find_all_bounded_loop mem fuel X1 ctx 0 (Some v :: rest) e endOut i out
    = (t, Done (i', out + Z.of_nat (length (outputs t)))) /\
    i <= i' <= e /\
    out + Z.of_nat (length (outputs t)) <= endOut /\
    StronglySorted Z.lt (outputs t) /\
    (forall a, In a (outputs t) <->
               i <= a < i' /\ a + size (Some v :: rest) <= e /\
               matches_at mem (Some v :: rest) a) /\
    (out + Z.of_nat (length (outputs t)) < endOut ->
     forall a, i' <= a -> a + size (Some v :: rest) <= e ->
               ~ matches_at mem (Some v :: rest) a).
Proof.
  set (s := Some v :: rest) in *.
  assert (Hsz : size s = size rest + 1) by apply size_cons.
  pose proof (size_nonneg rest) as Hrest.
  revert i out. induction fuel as [|fuel IH]; intros i out Hi Hout Hfuel; [lia |].
  rewrite find_all_bounded_loop_step. rewrite to_size_t_small by lia.
  assert (Hdone : e <= i \/ out = endOut \/ size s > e - i ->
            exists t i',
              ([] : list event, Done (i, out))
              = (t, Done (i', out + Z.of_nat (length (outputs t)))) /\
              i <= i' <= e /\
              out + Z.of_nat (length (outputs t)) <= endOut /\
              StronglySorted Z.lt (outputs t) /\
              (forall a, In a (outputs t) <->
                         i <= a < i' /\ a + size s <= e /\ matches_at mem s a) /\
              (out + Z.of_nat (length (outputs t)) < endOut ->
               forall a, i' <= a -> a + size s <= e -> ~ matches_at mem s a)).
  { intros Hstop. exists [], i. cbn [outputs flat_map length].
    rewrite Z.add_0_r. split; [reflexivity |]. split; [lia |]. split; [lia |].
    split; [constructor |]. split.
    - intros a. split; [intros [] | intros (Ha & _); lia].
    - intros Hroom a Ha Hae _. lia. }
  destruct (Z.ltb_spec i e) as [Hie | Hie]; [| apply Hdone; lia].
  destruct (Z.eqb_spec out endOut) as [Heq | Hne]; [apply Hdone; lia |].
  destruct (Z.leb_spec (size s) (e - i)) as [Hlen | Hlen]; [| apply Hdone; lia].
  cbn [andb negb].
  destruct (concrete_head_scan i) as (r & Hr & Hfm); [lia | exact Hlen |].
  fold s in Hfm. rewrite Hr. destruct r as [p|]; cbn [first_match] in Hfm.
  - destruct Hfm as (Hip & Hpe & _ & Hpm & Hfirst).
    cbv zeta. cbn [alignment_stride].
    replace (p - Z.of_nat 0 + 1) with (p + 1) by lia.
    replace (p - Z.of_nat 0) with p by lia.
    destruct (IH (p + 1) (out + 1)) as (t & i' & Ht & Hi' & Hcap & Hsorted & Hin & Hall);
      try lia.
    exists (EvScan i e :: EvOut p :: t), i'. rewrite Ht. cbn [fst snd].
    cbn [outputs flat_map app length]. fold (outputs t).
    split; [do 3 f_equal; lia |]. split; [lia |]. split; [lia |].
    split; [| split].
    + constructor; [exact Hsorted |]. apply Forall_forall. intros a Ha.
      apply Hin in Ha. lia.
    + intros a. split.
      * intros [<- | Ha]; [| apply Hin in Ha]; (split; [lia | split]);
          try lia; try tauto.
      * intros (Ha & Hae & Ham).
        destruct (Z.lt_trichotomy a p) as [Hlt | [-> | Hgt]].
        -- exfalso. apply (Hfirst a); [lia | apply Z.mod_1_r | exact Ham].
        -- now left.
        -- right. apply Hin. repeat split; [lia | lia | exact Hae | exact Ham].
    + intros Hroom. apply Hall. lia.
  - exists [EvScan i e], e. cbn [outputs flat_map app length].
    rewrite Z.add_0_r. split; [reflexivity |]. split; [lia |]. split; [lia |].
    split; [constructor |]. split.
    + intros a. split; [intros [] |]. intros (Ha & Hae & Ham). exfalso.
      apply (Hfm a); [lia | exact Hae | apply Z.mod_1_r | exact Ham].
    + intros _ a Ha Hae _. lia.
Qed.

End FindAllConcreteHead.


(** The counted find-all with stride 1, the scalar kernel and a signature
    that starts with a concrete element: with a step budget above the
    length of the range it ends, it has written exactly the starts of the
    range at which the signature matches, each once and in increasing
    order, it returns their number, and every kernel call was on a range
    [[x, end)] with [begin <= x <= end] that can hold the signature. *)
Theorem find_all_counted_X1_exhaustive :
  forall (rs : scan_alignment -> scan_function_t * Z)
         (ah : scan_context -> scan_context) (ce : bool) (mem : memory)
         (fuel : nat) (b e : address) (v : byte) (rest : signature_view)
         (h : scan_hint),
    selects_scalar rs ah ce ->
    mapped mem b e -> 0 <= b -> e < 2 ^ 64 ->
    (Z.to_nat (e - b) < fuel)%nat ->
    exists t,
      find_all_pattern_counted rs ah ce mem fuel X1 b e (Some v :: rest) h
      = (t, Done (Z.of_nat (length (outputs t)))) /\
      StronglySorted Z.lt (outputs t) /\
      (forall a, In a (outputs t) <->
                 b <= a /\ a + size (Some v :: rest) <= e /\
                 matches_at mem (Some v :: rest) a) /\
      (forall x y, In (x, y) (scans t) ->
                   y = e /\ b <= x <= e /\ size (Some v :: rest) <= e - x).
Proof.
  intros rs ah ce mem fuel b e v rest h Hsc Hmap Hlo Hhi Hfuel.
  unfold find_all_pattern_counted. cbn [truncate truncate_offset subspan skipn].
  cbv zeta. replace (b + Z.of_nat 0) with b by lia.
  destruct (Hsc X1 (Some v :: rest) h) as [Hsig Hker].
  set (ctx := create rs ah ce X1 (Some v :: rest) h) in *.
  destruct (Z.le_gt_cases b e) as [Hbe | Hbe].
  - destruct (counted_loop_concrete_head mem ctx v rest b e Hsig Hker Hmap
                fuel b 0) as (t & Ht & Hrest); try lia.
    exists t. rewrite Ht. split; [reflexivity | exact Hrest].
  - destruct fuel as [|fuel]; [lia |].
    rewrite find_all_counted_loop_step.
    destruct (Z.ltb_spec b e) as [Hlt | _]; [lia |]. cbn [andb].
    exists []. cbn [outputs scans flat_map length].
    split; [reflexivity |]. split; [constructor |]. split; [| intros x y []].
    intros a. split; [intros [] |]. intros (Ha & Hae & _).
    pose proof (size_nonneg (Some v :: rest)). lia.
Qed.

(** The bounded find-all with stride 1, the scalar kernel and a signature
    that starts with a concrete element: it ends, the addresses written are
    exactly the matching starts below the returned input cursor, each once
    and in increasing order, the output cursor has advanced by their number
    without passing the end of the output, and when room is left in the
    output no matching start remains at or after the input cursor. *)
Theorem find_all_bounded_X1_exhaustive :
  forall (rs : scan_alignment -> scan_function_t * Z)
         (ah : scan_context -> scan_context) (ce : bool) (mem : memory)
         (fuel : nat) (b e : address) (beginOut endOut : Z) (v : byte)
         (rest : signature_view) (h : scan_hint),
    selects_scalar rs ah ce ->
    mapped mem b e -> 0 <= b -> b <= e -> e < 2 ^ 64 ->
    beginOut <= endOut ->
    (Z.to_nat (endOut - beginOut) < fuel)%nat ->
    exists t i,
      find_all_pattern rs ah ce mem fuel X1 b e beginOut endOut (Some v :: rest) h
      = (t, Done (i, beginOut + Z.of_nat (length (outputs t)))) /\
      b <= i <= e /\
      beginOut + Z.of_nat (length (outputs t)) <= endOut /\
      StronglySorted Z.lt (outputs t) /\
      (forall a, In a (outputs t) <->
                 b <= a < i /\ a + size (Some v :: rest) <= e /\
                 matches_at mem (Some v :: rest) a) /\
      (beginOut + Z.of_nat (length (outputs t)) < endOut ->
       forall a, i <= a -> a + size (Some v :: rest) <= e ->
                 ~ matches_at mem (Some v :: rest) a).
Proof.
  intros rs ah ce mem fuel b e beginOut endOut v rest h Hsc Hmap Hlo Hbe Hhi
    Hout Hfuel.
  unfold find_all_pattern. cbn [truncate truncate_offset subspan skipn].
  cbv zeta. replace (b + Z.of_nat 0) with b by lia.
  destruct (Hsc X1 (Some v :: rest) h) as [Hsig Hker].
  set (ctx := create rs ah ce X1 (Some v :: rest) h) in *.
  destruct (bounded_loop_concrete_head mem ctx v rest b e Hsig Hker Hmap Hlo Hhi
              fuel endOut b beginOut) as (t & i & Ht & Hrest); try lia.
  exists t, i. rewrite Ht. unfold tbind, tret. rewrite app_nil_r.
  split; [do 3 f_equal; lia | exact Hrest].
Qed.

(** The overlapping-matches scenario of the specification: range
    [AB AB AB AB] at address 16, signature [AB AB], stride 1. *)
Lemma find_all_counted_X1_exhaustive_witness :
  exists t,
    find_all_pattern_counted resolve_scalar apply_no_hints false
      (mem_of 16 [xab; xab; xab; xab]) 5 X1 16 20 [Some xab; Some xab] hint_none
    = (t, Done (Z.of_nat (length (outputs t)))) /\
    StronglySorted Z.lt (outputs t) /\
    (forall a, In a (outputs t) <->
               16 <= a /\ a + size [Some xab; Some xab] <= 20 /\
               matches_at (mem_of 16 [xab; xab; xab; xab]) [Some xab; Some xab] a) /\
    (forall x y, In (x, y) (scans t) ->
                 y = 20 /\ 16 <= x <= 20 /\ size [Some xab; Some xab] <= 20 - x).
Proof.
  refine (find_all_counted_X1_exhaustive resolve_scalar apply_no_hints false
            (mem_of 16 [xab; xab; xab; xab]) 5 16 20 xab [Some xab] hint_none
            (fallback_selects_scalar false) (mem_of_mapped 16 _) _ _ _).
  - lia.
  - reflexivity.
  - vm_compute. lia.
Defined.

Lemma find_all_bounded_X1_exhaustive_witness :
  exists t i,
    find_all_pattern resolve_scalar apply_no_hints false
      (mem_of 16 [xab; xab; xab; xab]) 3 X1 16 20 0 2 [Some xab; Some xab] hint_none
    = (t, Done (i, 0 + Z.of_nat (length (outputs t)))) /\
    16 <= i <= 20 /\
    0 + Z.of_nat (length (outputs t)) <= 2 /\
    StronglySorted Z.lt (outputs t) /\
    (forall a, In a (outputs t) <->
               16 <= a < i /\ a + size [Some xab; Some xab] <= 20 /\
               matches_at (mem_of 16 [xab; xab; xab; xab]) [Some xab; Some xab] a) /\
    (0 + Z.of_nat (length (outputs t)) < 2 ->
     forall a, i <= a -> a + size [Some xab; Some xab] <= 20 ->
               ~ matches_at (mem_of 16 [xab; xab; xab; xab]) [Some xab; Some xab] a).
Proof.
  refine (find_all_bounded_X1_exhaustive resolve_scalar apply_no_hints false
            (mem_of 16 [xab; xab; xab; xab]) 3 16 20 0 2 xab [Some xab] hint_none
            (fallback_selects_scalar false) (mem_of_mapped 16 _) _ _ _ _ _).
  - lia.
  - lia.
  - reflexivity.
  - lia.
  - vm_compute. lia.
Defined.

(** What the stride-16 kernel examines: with [scanEnd] the bound
    [end - len + 1] rounded down to a multiple of 16, it returns the lowest
    multiple of 16 in [[begin, scanEnd)] at which the signature matches, and
    null when no multiple of 16 in [[begin, scanEnd)] matches. *)
Theorem X16_kernel_examined_starts :
  forall (mem : memory) (b e : address) (ctx : scan_fields) (v : byte)
         (rest : signature_view),
    signature ctx = Some v :: rest ->
    mapped mem b e ->
    let scanEnd := prev_boundary_align X16 (e - size (signature ctx) + 1) in
    exists r,
      find_pattern_FastFirst_X16 mem b e ctx = Done r /\
      match r with
      | Some p =>
          b <= p < scanEnd /\ p mod 16 = 0 /\ matches_at mem (signature ctx) p /\
          forall q, b <= q < p -> q mod 16 = 0 -> ~ matches_at mem (signature ctx) q
      | None =>
          forall q, b <= q < scanEnd -> q mod 16 = 0 ->
                    ~ matches_at mem (signature ctx) q
      end.
Proof.
  intros mem b e ctx v rest Hsig Hmap scanEnd.
  destruct (find_pattern_FastFirst_X16_spec mem b e ctx v rest Hsig Hmap)
    as (r & Hr & Hfm).
  exists r. split; [exact Hr |]. fold scanEnd in Hfm.
  destruct r as [p|]; cbn [first_match] in Hfm.
  - destruct Hfm as (Hb & He & Ha & Hm & Hf). repeat split; try assumption; lia.
  - intros q Hq Hqa. apply Hfm; [lia | lia | exact Hqa].
Qed.

(** [DE AD] at address 32 of a range from 16 to 49: the kernel reaches the
    candidate 32, since the rounded bound is 48. *)
Lemma X16_kernel_examined_starts_witness :
  exists r,
    find_pattern_FastFirst_X16
      (mem_of 16 (repeat x00 16 ++ xde :: xad :: repeat x00 15)) 16 49
      {| signature := [Some xde; Some xad]; alignment := X16; vectorSize := 0;
         hints := hint_none |} = Done r /\
    match r with
    | Some p =>
        16 <= p < 48 /\ p mod 16 = 0 /\
        matches_at (mem_of 16 (repeat x00 16 ++ xde :: xad :: repeat x00 15))
          [Some xde; Some xad] p /\
        forall q, 16 <= q < p -> q mod 16 = 0 ->
                  ~ matches_at (mem_of 16 (repeat x00 16 ++ xde :: xad :: repeat x00 15))
                      [Some xde; Some xad] q
    | None =>
        forall q, 16 <= q < 48 -> q mod 16 = 0 ->
                  ~ matches_at (mem_of 16 (repeat x00 16 ++ xde :: xad :: repeat x00 15))
                      [Some xde; Some xad] q
    end.
Proof.
  exact (X16_kernel_examined_starts
           (mem_of 16 (repeat x00 16 ++ xde :: xad :: repeat x00 15)) 16 49
           {| signature := [Some xde; Some xad]; alignment := X16; vectorSize := 0;
              hints := hint_none |} xde [Some xad] eq_refl (mem_of_mapped 16 _)).
Defined.

(** Find-first around any stored kernel: once the range is accepted, a
    kernel hit at [p] is returned as [p - offset], with [offset] the number
    of leading wildcards, and a kernel miss as null; the kernel is entered
    exactly once, on the range advanced by [offset]. *)
Theorem find_pattern_hit_and_miss :
  forall (rs : scan_alignment -> scan_function_t * Z)
         (ah : scan_context -> scan_context) (ce : bool) (mem : memory)
         (al : scan_alignment) (beginIt endIt : address)
         (sig : signature_view) (h : scan_hint),
    let offset := Z.of_nat (truncate_offset sig) in
    let trunc := subspan sig (truncate_offset sig) in
    let ctx := create rs ah ce al trunc h in
    beginIt + offset < endIt ->
    size trunc <= endIt - (beginIt + offset) < 2 ^ 64 ->
    (forall p,
        scanner ctx mem (beginIt + offset) endIt (fields ctx) = Done (Some p) ->
        find_pattern rs ah ce mem al beginIt endIt sig h
        = ([EvScan (beginIt + offset) endIt], Done (Some (p - offset)))) /\
    (scanner ctx mem (beginIt + offset) endIt (fields ctx) = Done None ->
     find_pattern rs ah ce mem al beginIt endIt sig h
     = ([EvScan (beginIt + offset) endIt], Done None)).
Proof.
  intros rs ah ce mem al beginIt endIt sig h offset trunc ctx Hlt Hlen.
  rewrite find_pattern_unfold. cbv zeta. fold offset trunc ctx.
  destruct (Z.leb_spec endIt (beginIt + offset)); [lia |]. cbn [orb].
  rewrite to_size_t_small by lia.
  destruct (Z.ltb_spec (endIt - (beginIt + offset)) (size trunc)); [lia |].
  split.
  - intros p ->. cbn [obind ptr_add option_map]. now rewrite Z.add_opp_r.
  - intros ->. reflexivity.
Qed.

Lemma find_pattern_hit_and_miss_witness :
  find_pattern resolve_scalar apply_no_hints false (mem_of 16 [x11; x22; x33; x44])
    X1 16 20 [None; None; Some x33] hint_none
  = ([EvScan 18 20], Done (Some (18 - 2))).
Proof.
  refine (proj1 (find_pattern_hit_and_miss resolve_scalar apply_no_hints false
                   (mem_of 16 [x11; x22; x33; x44]) X1 16 20
                   [None; None; Some x33] hint_none _ _) 18 _).
  - reflexivity.
  - vm_compute. split; [discriminate | reflexivity].
  - reflexivity.
Defined.

(** The cursor of find-all after a hit at [p] is [p - offset + stride]: with
    three leading wildcards on [33 33 33 33 33] at address 16, the second
    kernel call starts before the first hit, the address 14 written next
    lies before the range, and the third call starts at 15, outside the
    range, where the load faults. *)
Lemma find_all_wildcards_walk_backwards :
  find_all_pattern resolve_scalar apply_no_hints false
    (mem_of 16 [x33; x33; x33; x33; x33]) 10 X1 16 21 0 8
    [None; None; None; Some x33] hint_none
  = ([EvScan 19 21; EvOut 16; EvScan 17 21; EvOut 14; EvScan 15 21], Fault).
Proof.
  vm_compute. reflexivity.
Qed.

(** ** The scenarios of the specification, run on the model *)

(** Plain match: range [00 01 02 03 04], signature [02 03]. *)
Example scenario_plain_match :
  find_pattern resolve_scalar apply_no_hints false
    (mem_of 4096 [x00; x01; x02; x03; x04]) X1 4096 4101 [Some x02; Some x03]
    hint_none
  = ([EvScan 4096 4101], Done (Some 4098)) /\
  outputs (fst (find_all_pattern_counted resolve_scalar apply_no_hints false
                  (mem_of 4096 [x00; x01; x02; x03; x04]) 6 X1 4096 4101
                  [Some x02; Some x03] hint_none))
  = [4098].
Proof.
  split; reflexivity.
Qed.

(** Wildcard in the body: range [AA BB CC DD EE], signature [AA ? CC]; with
    the byte under the last element changed to [EE] there is no match. *)
Example scenario_wildcards_in_body :
  snd (find_pattern resolve_scalar apply_no_hints false
         (mem_of 4096 [xaa; xbb; xcc; xdd; xee]) X1 4096 4101
         [Some xaa; None; Some xcc] hint_none)
  = Done (Some 4096) /\
  snd (find_pattern resolve_scalar apply_no_hints false
         (mem_of 4096 [xaa; xbb; xee; xdd; xee]) X1 4096 4101
         [Some xaa; None; Some xcc] hint_none)
  = Done None.
Proof.
  split; reflexivity.
Qed.

(** Stride-16 miss: 128 zero bytes with [DE AD] at offset 17. *)
Example scenario_stride16_miss :
  let data := repeat x00 17 ++ [xde; xad] ++ repeat x00 109 in
  snd (find_pattern resolve_scalar apply_no_hints false (mem_of 4096 data) X16
         4096 4224 [Some xde; Some xad] hint_none)
  = Done None /\
  snd (find_pattern resolve_scalar apply_no_hints false (mem_of 4096 data) X1
         4096 4224 [Some xde; Some xad] hint_none)
  = Done (Some 4113).
Proof.
  split; vm_compute; reflexivity.
Qed.

(** Overlapping matches with stride 1: range [AB AB AB AB], signature
    [AB AB]. *)
Example scenario_overlapping_matches :
  find_all_pattern_counted resolve_scalar apply_no_hints false
    (mem_of 4096 [xab; xab; xab; xab]) 5 X1 4096 4100 [Some xab; Some xab]
    hint_none
  = ([EvScan 4096 4100; EvOut 4096; EvScan 4097 4100; EvOut 4097;
      EvScan 4098 4100; EvOut 4098], Done 3).
Proof.
  reflexivity.
Qed.

(** No match on a short range: one byte, a signature of two; nothing is
    read, even from a memory that holds no byte at all. *)
Example scenario_short_range :
  find_pattern resolve_scalar apply_no_hints false (fun _ => None) X1 4096 4097
    [Some x01; Some x02] hint_none
  = ([], Done None).
Proof.
  reflexivity.
Qed.

(* ------------------------------------------------------------------ *)
(** * Further properties of the header *)

(** ** The alignment mask *)

Lemma no_multiple_within_stride (s i j : Z) :
  0 < s -> i mod s = 0 -> i - s < j < i -> j mod s <> 0.
Proof.
  intros Hs Hi Hj Hjs.
  apply Z.mod_divide in Hi; [| lia]. apply Z.mod_divide in Hjs; [| lia].
  destruct Hi as [x ->]. destruct Hjs as [y ->].
  assert (y < x) by (apply (Z.mul_lt_mono_pos_r s); lia).
  assert (x - 1 < y) by (apply (Z.mul_lt_mono_pos_r s); lia).
  lia.
Qed.

Lemma alignment_mask_loop_bits (fuel : nat) (bits s i mask : Z) :
  0 < s -> 0 <= i -> i mod s = 0 -> i = 0 \/ i - s < bits ->
  (Z.to_nat (bits - i) < fuel)%nat ->
  0 <= mask ->
  (forall j, 0 <= j -> Z.testbit mask j = (j <? i) && (j mod s =? 0)) ->
  exists m,
    alignment_mask_loop fuel bits s i mask = Done m /\
    0 <= m /\
    forall j, 0 <= j -> Z.testbit m j = (j <? bits) && (j mod s =? 0).
Proof.
  intros Hs. revert i mask.
  induction fuel as [|fuel IH]; intros i mask Hi Him Hprev Hfuel Hmask Hbits; [lia |].
  cbn [alignment_mask_loop]. destruct (Z.ltb_spec i bits) as [Hlt | Hge].
  - assert (Hone : to_type bits (Z.shiftl 1 i) = 2 ^ i).
    { unfold to_type. rewrite Z.shiftl_1_l. apply Z.mod_small.
      split; [apply Z.pow_nonneg; lia | apply Z.pow_lt_mono_r; lia]. }
    rewrite Hone. apply IH; try lia.
    + replace (i + s) with (i + 1 * s) by lia. now rewrite Z_mod_plus_full.
    + apply Z.lor_nonneg. split; [exact Hmask | apply Z.pow_nonneg; lia].
    + intros j Hj. rewrite Z.lor_spec, Hbits by exact Hj.
      rewrite Z.pow2_bits_eqb by exact Hi.
      destruct (Z.eqb_spec i j) as [<- | Hne].
      * rewrite Him. cbn. rewrite orb_true_r.
        destruct (Z.ltb_spec i (i + s)); [reflexivity | lia].
      * rewrite orb_false_r.
        destruct (Z.ltb_spec j i) as [Hji | Hji];
          destruct (Z.ltb_spec j (i + s)) as [Hjs | Hjs];
          try reflexivity; try lia.
        cbn [andb]. symmetry. apply Z.eqb_neq.
        apply (no_multiple_within_stride s (i + s) j); try lia.
        replace (i + s) with (i + 1 * s) by lia. now rewrite Z_mod_plus_full.
  - exists mask. split; [reflexivity |]. split; [exact Hmask |].
    intros j Hj. rewrite Hbits by exact Hj.
    destruct (Z.ltb_spec j i) as [Hji | Hji];
      destruct (Z.ltb_spec j bits) as [Hjb | Hjb]; try reflexivity; try lia.
    cbn [andb]. apply Z.eqb_neq.
    destruct (Z.eq_dec i 0) as [-> | Hi0]; [lia |].
    destruct (Z.lt_ge_cases (i - s) j) as [Hlow | Hlow].
    + apply (no_multiple_within_stride s i j); lia.
    + lia.
Qed.

(** [create_alignment_mask] for an unsigned type of [type_size] bytes
    returns a mask that fits the type and whose bit [j] is set exactly when
    [j] is below the width of the type and a multiple of the stride; for
    stride 1 it is the all-ones value of the type. *)
Theorem create_alignment_mask_bits :
  forall (type_size : Z) (al : scan_alignment),
    0 < type_size ->
    exists m,
      create_alignment_mask type_size al = Done m /\
      0 <= m < 2 ^ (type_size * 8) /\
      (forall j, 0 <= j ->
                 Z.testbit m j
                 = (j <? type_size * 8) && (j mod alignment_stride al =? 0)) /\
      (al = X1 -> m = 2 ^ (type_size * 8) - 1).
Proof.
  intros type_size al Hsz. unfold create_alignment_mask. cbv zeta.
  set (bits := type_size * 8).
  assert (Hs : 0 < alignment_stride al) by (destruct al; cbn; lia).
  destruct (alignment_mask_loop_bits (S (Z.to_nat bits)) bits (alignment_stride al)
              0 0 Hs) as (m & Hm & Hpos & Hbits); try lia.
  { apply Zmod_0_l. }
  { intros j Hj. rewrite Z.bits_0. destruct (Z.ltb_spec j 0); [lia | reflexivity]. }
  exists m. split; [exact Hm |].
  assert (Hfit : m mod 2 ^ bits = m).
  { apply Z.bits_inj'. intros j Hj.
    destruct (Z.lt_ge_cases j bits) as [Hlow | Hhigh].
    - now rewrite Z.mod_pow2_bits_low.
    - rewrite Z.mod_pow2_bits_high by lia. rewrite Hbits by exact Hj.
      destruct (Z.ltb_spec j bits); [lia | reflexivity]. }
  split; [| split; [exact Hbits |]].
  - rewrite <- Hfit. apply Z.mod_pos_bound. apply Z.pow_pos_nonneg; lia.
  - intros ->. replace (2 ^ bits - 1) with (Z.ones bits)
      by (rewrite Z.ones_equiv; lia).
    apply Z.bits_inj'. intros j Hj. rewrite Hbits by exact Hj.
    cbn [alignment_stride]. rewrite Z.mod_1_r. cbn. rewrite andb_true_r.
    destruct (Z.ltb_spec j bits) as [Hlow | Hhigh].
    + rewrite Z.ones_spec_low; [reflexivity | lia].
    + rewrite Z.ones_spec_high; [reflexivity | lia].
Qed.

(** The 32-bit mask for stride 16 has the bits 0 and 16 set. *)
Lemma create_alignment_mask_bits_witness :
  exists m,
    create_alignment_mask 4 X16 = Done m /\
    0 <= m < 2 ^ (4 * 8) /\
    (forall j, 0 <= j ->
               Z.testbit m j = (j <? 4 * 8) && (j mod alignment_stride X16 =? 0)) /\
    (X16 = X1 -> m = 2 ^ (4 * 8) - 1).
Proof.
  apply (create_alignment_mask_bits 4 X16). lia.
Defined.

(** ** Truncation *)

(** [truncate] splits a signature into its leading wildcards and the rest:
    the signature is [offset] wildcards followed by the rest, the rest is
    empty or starts with a concrete element, the sizes add up, and
    truncating the rest again takes nothing off. *)
Theorem truncate_decomposes :
  forall sig : signature_view,
    let offset := fst (truncate sig) in
    let trunc := snd (truncate sig) in
    sig = repeat None offset ++ trunc /\
    size sig = Z.of_nat offset + size trunc /\
    (trunc = [] \/ exists v rest, trunc = Some v :: rest) /\
    (trunc = [] <-> forall k x, nth_error sig k = Some x -> x = None) /\
    truncate trunc = (0%nat, trunc).
Proof.
  intros sig. unfold truncate. cbn [fst snd].
  split; [apply truncate_split |]. split; [apply truncate_size |].
  unfold subspan.
  induction sig as [|[v|] sig IH]; cbn [truncate_offset skipn].
  - split; [now left |]. split; [| reflexivity].
    split; [intros _ [|k] x H; discriminate H | reflexivity].
  - split; [right; now exists v, sig |]. split; [| reflexivity].
    split; [discriminate |]. intros H. now specialize (H 0%nat (Some v) eq_refl).
  - destruct IH as (Hshape & Hall & Hidem).
    split; [exact Hshape |]. split; [| exact Hidem].
    rewrite Hall. split.
    + intros H [|k] x Hk; [now injection Hk as <- | now apply (H k)].
    + intros H k x Hk. now apply (H (S k)).
Qed.

(** ** Boundaries, composed *)

Lemma boundary_align_fixed_points_Z (al : scan_alignment) (p : address) :
  let s := alignment_stride al in
  (next_boundary_align al p = p <-> p mod s = 0) /\
  (prev_boundary_align al p = p <-> p mod s = 0) /\
  next_boundary_align al (next_boundary_align al p) = next_boundary_align al p /\
  prev_boundary_align al (prev_boundary_align al p) = prev_boundary_align al p /\
  prev_boundary_align al (next_boundary_align al p) = next_boundary_align al p /\
  next_boundary_align al (prev_boundary_align al p) = prev_boundary_align al p /\
  p <= next_boundary_align al p < p + s /\
  p - s < prev_boundary_align al p <= p.
Proof.
  destruct al; cbn [alignment_stride]; cbv zeta.
  - unfold next_boundary_align, prev_boundary_align. cbn.
    rewrite Z.mod_1_r. repeat split; lia.
  - destruct (next_boundary_align_X16_spec p) as [Hn Hna].
    destruct (prev_boundary_align_X16_spec p) as [Hp Hpa].
    assert (Hfix_n : forall q, q mod 16 = 0 -> next_boundary_align X16 q = q).
    { intros q Hq. rewrite next_boundary_align_X16, Hq.
      change ((16 - 0) mod 16) with 0. lia. }
    assert (Hfix_p : forall q, q mod 16 = 0 -> prev_boundary_align X16 q = q).
    { intros q Hq. rewrite prev_boundary_align_X16, Hq. lia. }
    split; [| split; [| split; [| split; [| split; [| split; [| split]]]]]];
      try (now auto).
    + split; [intros H; now rewrite <- H | apply Hfix_n].
    + split; [intros H; now rewrite <- H | apply Hfix_p].
Qed.

(** For a pointer [p] with [p + stride] still inside the 64-bit address
    space, the pointers the two boundary functions return are [p] itself
    exactly when [p] is a multiple of the stride; each function is
    idempotent and leaves the result of the other in place; and neither
    moves a pointer by a full stride. *)
Theorem boundary_align_fixed_points :
  forall (al : scan_alignment) (p : address),
    0 <= p -> p + alignment_stride al <= 2 ^ 64 ->
    let s := alignment_stride al in
    let next := next_boundary_align_ptr al in
    let prev := prev_boundary_align_ptr al in
    (next p = p <-> p mod s = 0) /\
    (prev p = p <-> p mod s = 0) /\
    next (next p) = next p /\
    prev (prev p) = prev p /\
    prev (next p) = next p /\
    next (prev p) = prev p /\
    p <= next p < p + s /\
    p - s < prev p <= p.
Proof.
  intros al p Hlo Hhi. cbv zeta.
  destruct (boundary_ptr_in_range al p Hlo Hhi)
    as (Hn & Hp & Hn0 & Hn1 & Hp0 & Hp1).
  rewrite Hn, Hp.
  destruct (boundary_ptr_in_range al _ Hn0 Hn1) as (-> & -> & _).
  destruct (boundary_ptr_in_range al _ Hp0 Hp1) as (-> & -> & _).
  apply boundary_align_fixed_points_Z.
Qed.

Lemma boundary_align_fixed_points_witness :
  (next_boundary_align_ptr X16 4097 = 4097 <-> 4097 mod 16 = 0) /\
  (prev_boundary_align_ptr X16 4097 = 4097 <-> 4097 mod 16 = 0) /\
  next_boundary_align_ptr X16 (next_boundary_align_ptr X16 4097)
  = next_boundary_align_ptr X16 4097 /\
  prev_boundary_align_ptr X16 (prev_boundary_align_ptr X16 4097)
  = prev_boundary_align_ptr X16 4097 /\
  prev_boundary_align_ptr X16 (next_boundary_align_ptr X16 4097)
  = next_boundary_align_ptr X16 4097 /\
  next_boundary_align_ptr X16 (prev_boundary_align_ptr X16 4097)
  = prev_boundary_align_ptr X16 4097 /\
  4097 <= next_boundary_align_ptr X16 4097 < 4097 + 16 /\
  4097 - 16 < prev_boundary_align_ptr X16 4097 <= 4097.
Proof.
  refine (boundary_align_fixed_points X16 4097 _ _).
  - lia.
  - vm_compute. discriminate.
Defined.

(** ** Reading integers at a result *)

Lemma load_le_bytes (mem : memory) (n : nat) (a : address) :
  load_le mem n a
  = match bytes_at mem n a with
    | Some bs => Done (le_value bs)
    | None => Fault
    end.
Proof.
  revert a. induction n as [|n IH]; intros a; [reflexivity |].
  cbn [load_le bytes_at]. unfold load. destruct (mem a) as [b|]; [| reflexivity].
  cbn [obind]. rewrite IH. destruct (bytes_at mem n (a + 1)) as [rest|];
    [| reflexivity].
  cbn [obind le_value]. f_equal. fold (byte_val b).
  apply lor_shiftl_8. apply byte_val_range.
Qed.

Lemma bytes_at_length (mem : memory) (n : nat) (a : address) (bs : list byte) :
  bytes_at mem n a = Some bs -> length bs = n.
Proof.
  revert a bs. induction n as [|n IH]; intros a bs; cbn [bytes_at].
  - now intros [= <-].
  - destruct (mem a) as [b|]; [| discriminate].
    destruct (bytes_at mem n (a + 1)) as [rest|] eqn:E; [| discriminate].
    intros [= <-]. cbn [length]. f_equal. now apply (IH (a + 1)).
Qed.

Lemma le_value_range (bs : list byte) :
  0 <= le_value bs < 2 ^ (8 * Z.of_nat (length bs)).
Proof.
  induction bs as [|b bs IH]; [cbn; lia |].
  cbn [le_value length]. pose proof (byte_val_range b) as Hb.
  replace (8 * Z.of_nat (S (length bs))) with (8 + 8 * Z.of_nat (length bs)) by lia.
  rewrite Z.pow_add_r by lia.
  set (hi := 2 ^ (8 * Z.of_nat (length bs))) in *.
  change (2 ^ 8) with 256 in *. nia.
Qed.

Lemma as_signed_range (bits u : Z) :
  1 <= bits -> 0 <= u < 2 ^ bits ->
  - 2 ^ (bits - 1) <= as_signed bits u < 2 ^ (bits - 1) /\
  as_signed bits u mod 2 ^ bits = u.
Proof.
  intros Hbits Hu. unfold as_signed.
  assert (Hpow : 2 ^ bits = 2 * 2 ^ (bits - 1)).
  { replace bits with (1 + (bits - 1)) at 1 by lia.
    rewrite Z.pow_add_r by lia. reflexivity. }
  assert (Hhalf : 0 < 2 ^ (bits - 1)) by (apply Z.pow_pos_nonneg; lia).
  destruct (Z.lt_ge_cases u (2 ^ (bits - 1))) as [Hlt | Hge].
  - rewrite testbit_small by lia. split; [lia | apply Z.mod_small; lia].
  - assert (Ht : Z.testbit u (bits - 1) = true).
    { apply Z.testbit_true; [lia |].
      assert (u / 2 ^ (bits - 1) = 1) as ->; [| reflexivity].
      symmetry. apply Z.div_unique with (r := u - 2 ^ (bits - 1)); lia. }
    rewrite Ht. split; [lia |].
    replace (u - 2 ^ bits) with (u + (-1) * 2 ^ bits) by lia.
    rewrite Z_mod_plus_full. apply Z.mod_small; lia.
Qed.

(** [read<Int>] on a result at [p]: when the [sizeof(Int)] bytes at
    [p + offset] are all mapped, it returns a value of the type whose bit
    pattern is the little-endian value of those bytes; when one of them is
    not, the load faults. *)
Theorem read_little_endian :
  forall (mem : memory) (p : address) (t : int_type) (offset : Z),
    (0 < int_bytes t)%nat ->
    match bytes_at mem (int_bytes t) (p + offset) with
    | Some bs =>
        exists v,
          read mem (Some p) t offset = Done v /\
          int_lo t <= v < int_hi t /\
          v mod 2 ^ (8 * sizeof t) = le_value bs
    | None => read mem (Some p) t offset = Fault
    end.
Proof.
  intros mem p t offset Hn. unfold read. rewrite load_le_bytes.
  destruct (bytes_at mem (int_bytes t) (p + offset)) as [bs|] eqn:E;
    [| reflexivity].
  cbn [obind]. exists (reinterpret t (le_value bs)). split; [reflexivity |].
  pose proof (le_value_range bs) as Hr.
  rewrite (bytes_at_length _ _ _ _ E) in Hr. fold (sizeof t) in Hr.
  assert (Hbits : 1 <= 8 * sizeof t) by (unfold sizeof; lia).
  unfold reinterpret, int_lo, int_hi. destruct (int_signed t).
  - now apply as_signed_range.
  - split; [exact Hr | apply Z.mod_small; exact Hr].
Qed.

(** A 16-bit signed read of [FE FF] is -2. *)
Lemma read_little_endian_witness :
  exists v,
    read (mem_of 32 [xfe; xff]) (Some 32) {| int_bytes := 2; int_signed := true |} 0
    = Done v /\
    int_lo {| int_bytes := 2; int_signed := true |} <= v
      < int_hi {| int_bytes := 2; int_signed := true |} /\
    v mod 2 ^ (8 * sizeof {| int_bytes := 2; int_signed := true |})
    = le_value [xfe; xff].
Proof.
  exact (read_little_endian (mem_of 32 [xfe; xff]) 32
           {| int_bytes := 2; int_signed := true |} 0 (Nat.lt_0_succ 1)).
Defined.

(** [index<Int, ArrayType>] on a result at [p], for a type of at most 8
    bytes and a positive element size: the value read is taken as a
    [size_t], so a negative one counts from 2^64, and is divided by the
    element size rounding down. *)
Theorem index_is_floor_division :
  forall (mem : memory) (p : address) (t : int_type) (elem_size offset v : Z),
    (0 < int_bytes t <= 8)%nat -> 0 < elem_size ->
    read mem (Some p) t offset = Done v ->
    let u := if v <? 0 then 2 ^ 64 + v else v in
    exists idx,
      index mem (Some p) t elem_size offset = Done idx /\
      idx = u / elem_size /\
      0 <= idx /\ idx * elem_size <= u < (idx + 1) * elem_size.
Proof.
  intros mem p t elem_size offset v Hn He Hread u.
  pose proof (read_little_endian mem p t offset ltac:(lia)) as Hspec.
  destruct (bytes_at mem (int_bytes t) (p + offset)) as [bs|];
    [| rewrite Hspec in Hread; discriminate Hread].
  destruct Hspec as (v' & Hv' & Hrange & _). rewrite Hread in Hv'.
  injection Hv' as <-.
  assert (Hsz : 8 <= 8 * sizeof t <= 64) by (unfold sizeof; lia).
  assert (Hlo : - 2 ^ 63 <= int_lo t).
  { unfold int_lo. destruct (int_signed t); [| lia].
    apply (proj1 (Z.opp_le_mono _ _)). apply Z.pow_le_mono_r; lia. }
  assert (Hhi : int_hi t <= 2 ^ 64).
  { unfold int_hi. destruct (int_signed t); apply Z.pow_le_mono_r; lia. }
  assert (Hu : to_size_t v = u /\ 0 <= u).
  { unfold to_size_t, u. destruct (Z.ltb_spec v 0) as [Hneg | Hpos].
    - split; [| lia]. replace v with (2 ^ 64 + v + (-1) * 2 ^ 64) at 1 by lia.
      rewrite Z_mod_plus_full. apply Z.mod_small. lia.
    - split; [apply Z.mod_small; lia | lia]. }
  destruct Hu as [Hu Hupos].
  exists (u / elem_size). unfold index. rewrite Hread. cbn [obind]. rewrite Hu.
  split; [reflexivity |]. split; [reflexivity |].
  pose proof (Z.mul_div_le u elem_size He).
  pose proof (Z.mul_succ_div_gt u elem_size He).
  split; [apply Z.div_pos; lia | lia].
Qed.

(** A 32-bit unsigned read of 40 as an index into 8-byte elements is 5. *)
Lemma index_is_floor_division_witness :
  exists idx,
    index (mem_of 32 [x28; x00; x00; x00]) (Some 32) uint32_t 8 0 = Done idx /\
    idx = 40 / 8 /\ 0 <= idx /\ idx * 8 <= 40 < (idx + 1) * 8.
Proof.
  refine (index_is_floor_division (mem_of 32 [x28; x00; x00; x00]) 32 uint32_t 8 0 40
            _ _ _).
  - cbn. lia.
  - lia.
  - reflexivity.
Defined.

(** [rel] on a result at [p] whose 2 GiB window around [p + offset + 4]
    lies inside the address space and above the null pointer: when the four
    bytes at [p + offset] are mapped, [rel] returns a non-null address of
    that window; when one of them is not mapped, the load faults. *)
Theorem rel_within_reach :
  forall (mem : memory) (p : address) (offset : Z),
    2 ^ 31 < p + offset + 4 -> p + offset + 4 + 2 ^ 31 <= 2 ^ 64 ->
    match bytes_at mem 4 (p + offset) with
    | Some _ =>
        exists a,
          rel mem (Some p) offset = Done (Some a) /\
          p + offset + 4 - 2 ^ 31 <= a < p + offset + 4 + 2 ^ 31
    | None => rel mem (Some p) offset = Fault
    end.
Proof.
  intros mem p offset Hlow Hhigh.
  pose proof (read_little_endian mem p rel_t offset (Nat.lt_0_succ 3)) as Hspec.
  unfold rel. change (int_bytes rel_t) with 4%nat in Hspec.
  destruct (bytes_at mem 4 (p + offset)) as [bs|].
  - destruct Hspec as (v & Hv & Hrange & _).
    change (int_lo rel_t) with (- 2 ^ 31) in Hrange.
    change (int_hi rel_t) with (2 ^ 31) in Hrange.
    exists (p + v + offset + 4).
    rewrite Hv. cbn [obind]. rewrite ptr_add64_chain.
    change (sizeof rel_t) with 4. rewrite Z.mod_small by lia.
    unfold to_pointer. destruct (Z.eqb_spec (p + v + offset + 4) 0); [lia |].
    split; [reflexivity | lia].
  - now rewrite Hspec.
Qed.

(** A jump back by 2^31 from an address just above 2^31. *)
Lemma rel_within_reach_witness :
  match bytes_at (mem_of 2147483648 [x00; x00; x00; x80]) 4 (2147483648 + 0) with
  | Some _ =>
      exists a,
        rel (mem_of 2147483648 [x00; x00; x00; x80]) (Some 2147483648) 0
        = Done (Some a) /\
        2147483648 + 0 + 4 - 2 ^ 31 <= a < 2147483648 + 0 + 4 + 2 ^ 31
  | None =>
      rel (mem_of 2147483648 [x00; x00; x00; x80]) (Some 2147483648) 0 = Fault
  end.
Proof.
  refine (rel_within_reach (mem_of 2147483648 [x00; x00; x00; x80]) 2147483648 0
            _ _); vm_compute; [reflexivity | discriminate].
Defined.

(** ** Hints *)

(** The flag operators on 64-bit hint sets: a flag that was or-ed in is
    found by and, [none] is neutral for or and absorbing for and, and the
    results stay 64-bit values. *)
Theorem scan_hint_flags :
  forall h f : scan_hint,
    0 <= h < 2 ^ 64 -> 0 <= f < 2 ^ 64 ->
    scan_hint_and (scan_hint_or h f) f = f /\
    scan_hint_or h hint_none = h /\
    scan_hint_and h hint_none = hint_none /\
    0 <= scan_hint_or h f < 2 ^ 64 /\
    0 <= scan_hint_and h f < 2 ^ 64.
Proof.
  intros h f Hh Hf. unfold scan_hint_and, scan_hint_or, hint_none.
  assert (Hfit : forall z, 0 <= z ->
                   (forall j, 64 <= j -> Z.testbit z j = false) -> z < 2 ^ 64).
  { intros z Hz Hbits.
    assert (z mod 2 ^ 64 = z) as <-; [| apply Z.mod_pos_bound; lia].
    apply Z.bits_inj'. intros j Hj.
    destruct (Z.lt_ge_cases j 64) as [Hlow | Hhigh].
    - now rewrite Z.mod_pow2_bits_low.
    - rewrite Z.mod_pow2_bits_high by lia. symmetry. now apply Hbits. }
  assert (Hhigh : forall z j, 0 <= z < 2 ^ 64 -> 64 <= j -> Z.testbit z j = false).
  { intros z j Hz Hj. apply testbit_small; [| lia].
    split; [lia |]. apply Z.lt_le_trans with (2 ^ 64); [lia |].
    apply Z.pow_le_mono_r; lia. }
  split; [| split; [apply Z.lor_0_r | split; [apply Z.land_0_r | split]]].
  - apply Z.bits_inj'. intros j Hj. rewrite Z.land_spec, Z.lor_spec.
    destruct (Z.testbit h j), (Z.testbit f j); reflexivity.
  - split; [apply Z.lor_nonneg; lia |].
    apply Hfit; [apply Z.lor_nonneg; lia |].
    intros j Hj. rewrite Z.lor_spec, (Hhigh h), (Hhigh f) by assumption.
    reflexivity.
  - split; [apply Z.land_nonneg; lia |].
    apply Hfit; [apply Z.land_nonneg; lia |].
    intros j Hj. rewrite Z.land_spec, (Hhigh h) by assumption. reflexivity.
Qed.

Lemma scan_hint_flags_witness :
  scan_hint_and (scan_hint_or hint_none hint_x86_64) hint_x86_64 = hint_x86_64.
Proof.
  refine (proj1 (scan_hint_flags hint_none hint_x86_64 _ _)); vm_compute;
    split; discriminate || reflexivity.
Defined.

(** ** More on find-first *)

(** Find-first with stride 16 on the scalar kernel, on a mapped range and a
    signature with [n] leading wildcards before a concrete element: it ends
    without a fault; a returned start [a] lies in the range with the whole
    signature inside, the signature matches there, its first concrete
    element sits on a multiple of 16 below [scanEnd], and no lower start of
    that kind matches; null means no start of that kind matches.  Here
    [scanEnd] is [end - len + 1] for the truncated signature, rounded down
    to a multiple of 16. *)
Theorem find_first_X16_within_bound :
  forall (rs : scan_alignment -> scan_function_t * Z)
         (ah : scan_context -> scan_context) (ce : bool) (mem : memory)
         (beginIt endIt : address) (n : nat) (v : byte)
         (rest : signature_view) (h : scan_hint),
    selects_scalar rs ah ce ->
    mapped mem beginIt endIt -> 0 <= beginIt -> endIt < 2 ^ 64 ->
    let sig := repeat None n ++ Some v :: rest in
    let scanEnd := prev_boundary_align X16 (endIt - size (Some v :: rest) + 1) in
    exists t r,
      find_pattern rs ah ce mem X16 beginIt endIt sig h = (t, Done r) /\
      match r with
      | Some a =>
          beginIt <= a /\ a + size sig <= endIt /\
          (a + Z.of_nat n) mod 16 = 0 /\ a + Z.of_nat n < scanEnd /\
          matches_at mem sig a /\
          forall q, beginIt <= q < a -> (q + Z.of_nat n) mod 16 = 0 ->
                    ~ matches_at mem sig q
      | None =>
          forall q, beginIt <= q -> (q + Z.of_nat n) mod 16 = 0 ->
                    q + Z.of_nat n < scanEnd -> ~ matches_at mem sig q
      end.
Proof.
  intros rs ah ce mem beginIt endIt n v rest h Hsc Hmap Hlo Hhi sig scanEnd.
  destruct (find_pattern_scalar_spec rs ah ce mem Hsc X16 beginIt endIt n v rest h)
    as (t & r & Hrun & Hfm); try assumption.
  exists t, r. split; [exact Hrun |]. fold sig in Hfm.
  cbn [kernel_bound alignment_stride] in Hfm. fold scanEnd in Hfm.
  assert (Hsz : size sig = Z.of_nat n + size (Some v :: rest)).
  { unfold sig, size. rewrite length_app, repeat_length. apply Nat2Z.inj_add. }
  pose proof (prev_boundary_align_X16_spec (endIt - size (Some v :: rest) + 1))
    as [Hprev _]. fold scanEnd in Hprev.
  destruct r as [a|]; cbn [first_match] in Hfm.
  - destruct Hfm as (Hb & He & Ha & Hm & Hf).
    repeat split; try assumption; lia.
  - intros q Hq Hqa Hqe. apply Hfm; [exact Hq | lia | exact Hqa].
Qed.

Lemma find_first_X16_within_bound_witness :
  let mem := mem_of 16 (repeat x00 16 ++ xde :: xad :: repeat x00 30) in
  let sig := repeat None 1 ++ [Some xde; Some xad] in
  let scanEnd := prev_boundary_align X16 (64 - size [Some xde; Some xad] + 1) in
  exists t r,
    find_pattern resolve_scalar apply_no_hints false mem X16 16 64 sig hint_none
    = (t, Done r) /\
    match r with
    | Some a =>
        16 <= a /\ a + size sig <= 64 /\
        (a + Z.of_nat 1) mod 16 = 0 /\ a + Z.of_nat 1 < scanEnd /\
        matches_at mem sig a /\
        forall q, 16 <= q < a -> (q + Z.of_nat 1) mod 16 = 0 ->
                  ~ matches_at mem sig q
    | None =>
        forall q, 16 <= q -> (q + Z.of_nat 1) mod 16 = 0 ->
                  q + Z.of_nat 1 < scanEnd -> ~ matches_at mem sig q
    end.
Proof.
  refine (find_first_X16_within_bound resolve_scalar apply_no_hints false
            (mem_of 16 (repeat x00 16 ++ xde :: xad :: repeat x00 30)) 16 64 1 xde
            [Some xad] hint_none (fallback_selects_scalar false)
            (mem_of_mapped 16 _) _ _).
  - lia.
  - reflexivity.
Defined.

Lemma matches_at_agree (mem mem' : memory) (s : signature_view) (p : address) :
  agree_on mem mem' p (p + size s) ->
  matches_at mem s p -> matches_at mem' s p.
Proof.
  intros Hag Hm k v Hk. rewrite <- Hag; [now apply Hm |].
  assert (k < length s)%nat by (apply nth_error_Some; now rewrite Hk).
  unfold size. lia.
Qed.

Lemma first_match_agree (mem mem' : memory) (adm : address -> Prop)
  (s : signature_view) (b e : address) (r : option address) :
  agree_on mem mem' b e ->
  first_match mem adm s b e r -> first_match mem' adm s b e r.
Proof.
  intros Hag. pose proof (size_nonneg s) as Hs.
  assert (Hsub : forall q, b <= q -> q + size s <= e ->
                           agree_on mem mem' q (q + size s)).
  { intros q Hq Hqe a Ha. apply Hag. lia. }
  assert (Hsub' : forall q, b <= q -> q + size s <= e ->
                            agree_on mem' mem q (q + size s)).
  { intros q Hq Hqe a Ha. symmetry. apply Hag. lia. }
  destruct r as [p|]; cbn [first_match].
  - intros (Hb & He & Ha & Hm & Hf). repeat split; try assumption.
    + apply (matches_at_agree mem mem'); auto.
    + intros q Hq Hqa Hqm. apply (Hf q Hq Hqa).
      apply (matches_at_agree mem' mem); [apply Hsub'; lia | exact Hqm].
  - intros Hf q Hq Hqe Hqa Hqm. apply (Hf q Hq Hqe Hqa).
    apply (matches_at_agree mem' mem); [now apply Hsub' | exact Hqm].
Qed.

(** Find-first on the scalar kernels reads nothing outside
    [[begin + offset, end)]: two memories that hold the same bytes there,
    mapped, give the same run, whatever they hold elsewhere and under the
    leading wildcards. *)
Theorem find_first_reads_inside_range :
  forall (rs : scan_alignment -> scan_function_t * Z)
         (ah : scan_context -> scan_context) (ce : bool) (mem mem' : memory)
         (al : scan_alignment) (beginIt endIt : address) (n : nat) (v : byte)
         (rest : signature_view) (h : scan_hint),
    selects_scalar rs ah ce ->
    mapped mem (beginIt + Z.of_nat n) endIt ->
    agree_on mem mem' (beginIt + Z.of_nat n) endIt ->
    0 <= beginIt -> endIt < 2 ^ 64 ->
    find_pattern rs ah ce mem al beginIt endIt (repeat None n ++ Some v :: rest) h
    = find_pattern rs ah ce mem' al beginIt endIt (repeat None n ++ Some v :: rest) h.
Proof.
  intros rs ah ce mem mem' al beginIt endIt n v rest h Hsc Hmap Hag Hlo Hhi.
  rewrite !find_pattern_unfold.
  pose proof (truncate_wildcards n v rest) as Htr. unfold truncate in Htr.
  injection Htr as Hoff Htrunc. rewrite Htrunc, Hoff. cbv zeta.
  set (s := Some v :: rest) in *.
  destruct (Z.leb_spec endIt (beginIt + Z.of_nat n)) as [Hle | Hgt]; [reflexivity |].
  cbn [orb]. rewrite to_size_t_small by lia.
  destruct (Z.ltb_spec (endIt - (beginIt + Z.of_nat n)) (size s)) as [Hlt | Hge];
    [reflexivity |].
  assert (Hmap' : mapped mem' (beginIt + Z.of_nat n) endIt).
  { intros a Ha. rewrite <- Hag by exact Ha. now apply Hmap. }
  destruct (scalar_scan_spec rs ah ce mem Hsc al (beginIt + Z.of_nat n) endIt v rest h
              Hge Hmap) as (r1 & Hr1 & Hf1).
  destruct (scalar_scan_spec rs ah ce mem' Hsc al (beginIt + Z.of_nat n) endIt v rest h
              Hge Hmap') as (r2 & Hr2 & Hf2).
  fold s in Hr1, Hf1, Hr2, Hf2. rewrite Hr1, Hr2.
  assert (Hag' : agree_on mem mem' (beginIt + Z.of_nat n) (kernel_bound al s endIt)).
  { intros a Ha. apply Hag. pose proof (kernel_bound_le al s endIt). lia. }
  apply (first_match_agree mem mem' _ _ _ _ _ Hag') in Hf1.
  now rewrite (first_match_unique _ _ _ _ _ _ _ Hf1 Hf2).
Qed.

(** The same four bytes with and without a neighbour mapped before them. *)
Lemma find_first_reads_inside_range_witness :
  find_pattern resolve_scalar apply_no_hints false (mem_of 17 [x22; x33; x44])
    X1 16 20 [None; Some x33] hint_none
  = find_pattern resolve_scalar apply_no_hints false (mem_of 16 [x11; x22; x33; x44])
      X1 16 20 [None; Some x33] hint_none.
Proof.
  refine (find_first_reads_inside_range resolve_scalar apply_no_hints false
            (mem_of 17 [x22; x33; x44]) (mem_of 16 [x11; x22; x33; x44]) X1 16 20
            1 x33 [] hint_none (fallback_selects_scalar false)
            (mem_of_mapped 17 [x22; x33; x44]) _ _ _).
  - intros a Ha. assert (a = 17 \/ a = 18 \/ a = 19) as [-> | [-> | ->]] by lia;
      reflexivity.
  - lia.
  - reflexivity.
Defined.

(** ** More on find-all *)

Lemma outputs_hit (i e a : address) (t : list event) :
  outputs (EvScan i e :: EvOut a :: t) = a :: outputs t.
Proof.
  reflexivity.
Qed.

Lemma bounded_loop_within_capacity (mem : memory) (fuel : nat)
  (al : scan_alignment) (ctx : scan_context) (offset : nat)
  (trunc : signature_view) (e : address) (endOut : Z) (i : address) (out : Z) :
  out <= endOut ->
  let run := find_all_bounded_loop mem fuel al ctx offset trunc e endOut i out in
  out + Z.of_nat (length (outputs (fst run))) <= endOut /\
  forall i' out', snd run = Done (i', out') ->
                  out' = out + Z.of_nat (length (outputs (fst run))).
Proof.
  revert i out. induction fuel as [|fuel IH]; intros i out Hout; cbv zeta.
  - cbn. split; [lia | discriminate].
  - rewrite find_all_bounded_loop_step.
    destruct (Z.ltb_spec i e) as [Hie | Hie]; cbn [andb];
      [| cbn; split; [lia | intros ? ? [= <- <-]; lia]].
    destruct (Z.eqb_spec out endOut) as [Heq | Hne]; cbn [andb negb];
      [cbn; split; [lia | intros ? ? [= <- <-]; lia] |].
    destruct (size trunc <=? to_size_t (e - i));
      [| cbn; split; [lia | intros ? ? [= <- <-]; lia]].
    destruct (scanner ctx mem i e (fields ctx)) as [[p|] | |];
      try (cbn; split; [lia | discriminate]);
      [| cbn; split; [lia | intros ? ? [= <- <-]; lia]].
    cbv zeta. cbn [fst snd]. rewrite outputs_hit. cbn [length].
    specialize (IH (p - Z.of_nat offset + alignment_stride al) (out + 1)
                  ltac:(lia)).
    cbv zeta in IH. destruct IH as [Hcap Hres].
    split; [lia |]. intros i' out' Hrun. rewrite (Hres i' out' Hrun). lia.
Qed.

(** The bounded find-all never writes past its output range: for any
    dispatcher, kernel, memory, signature and step budget, with
    [beginOut <= endOut], at most [endOut - beginOut] addresses are written,
    and when the call returns, the output cursor it returns is [beginOut]
    plus the number of addresses written. *)
Theorem find_all_bounded_within_capacity :
  forall (rs : scan_alignment -> scan_function_t * Z)
         (ah : scan_context -> scan_context) (ce : bool) (mem : memory)
         (fuel : nat) (al : scan_alignment) (beginIn endIn : address)
         (beginOut endOut : Z) (sig : signature_view) (h : scan_hint),
    beginOut <= endOut ->
    let run := find_all_pattern rs ah ce mem fuel al beginIn endIn beginOut endOut
                 sig h in
    Z.of_nat (length (outputs (fst run))) <= endOut - beginOut /\
    forall i out, snd run = Done (i, out) ->
                  out = beginOut + Z.of_nat (length (outputs (fst run))) /\
                  out <= endOut.
Proof.
  intros rs ah ce mem fuel al beginIn endIn beginOut endOut sig h Hout run.
  subst run. rewrite find_all_pattern_trace.
  pose proof (bounded_loop_within_capacity mem fuel al
                (create rs ah ce al (subspan sig (truncate_offset sig)) h)
                (truncate_offset sig) (subspan sig (truncate_offset sig)) endIn endOut
                (beginIn + Z.of_nat (truncate_offset sig)) beginOut Hout) as H.
  cbv zeta in H. destruct H as [Hcap Hres]. split; [lia |].
  intros i out Hrun. unfold find_all_pattern, truncate, tbind, tret in Hrun.
  destruct (find_all_bounded_loop _ _ _ _ _ _ _ _ _ _) as [t [[i' out'] | |]];
    cbn [fst snd] in *; try discriminate Hrun.
  injection Hrun as <- <-. specialize (Hres i' out' eq_refl). lia.
Qed.

(** Room for two results, three matches in the range. *)
Lemma find_all_bounded_within_capacity_witness :
  Z.of_nat (length (outputs (fst
    (find_all_pattern resolve_scalar apply_no_hints false
       (mem_of 16 [xab; xab; xab; xab]) 9 X1 16 20 0 2 [Some xab; Some xab]
       hint_none)))) <= 2 - 0.
Proof.
  refine (proj1 (find_all_bounded_within_capacity resolve_scalar apply_no_hints
                   false (mem_of 16 [xab; xab; xab; xab]) 9 X1 16 20 0 2
                   [Some xab; Some xab] hint_none _)).
  lia.
Defined.

(** With exactly one leading wildcard and stride 1, the counted find-all
    on the scalar kernel never ends once find-first has a match [a]: for
    every step budget it is still running when the budget is spent and has
    written [a] once per step. *)
Theorem find_all_counted_one_wildcard_diverges :
  forall (rs : scan_alignment -> scan_function_t * Z)
         (ah : scan_context -> scan_context) (ce : bool) (mem : memory)
         (b e : address) (v : byte) (rest : signature_view) (h : scan_hint)
         (a : address) (fuel : nat),
    selects_scalar rs ah ce ->
    mapped mem b e -> 0 <= b -> e < 2 ^ 64 ->
    snd (find_pattern rs ah ce mem X1 b e (None :: Some v :: rest) h)
    = Done (Some a) ->
    let run := find_all_pattern_counted rs ah ce mem fuel X1 b e
                 (None :: Some v :: rest) h in
    snd run = OutOfFuel /\ outputs (fst run) = repeat a fuel.
Proof.
  intros rs ah ce mem b e v rest h a fuel Hsc Hmap Hlo Hhi Hfirst run. subst run.
  set (s := Some v :: rest) in *.
  assert (Hsz : size s = size rest + 1) by apply size_cons.
  pose proof (size_nonneg rest) as Hrest.
  destruct (find_pattern_scalar_spec rs ah ce mem Hsc X1 b e 1 v rest h)
    as (t & r & Hrun & Hfm); try assumption.
  cbn [repeat app] in Hrun, Hfm. fold s in Hrun, Hfm.
  rewrite Hrun in Hfirst. cbn [snd] in Hfirst. injection Hfirst as ->.
  cbn [first_match kernel_bound] in Hfm.
  destruct Hfm as (Hb & He & _ & Hm & Hf).
  change (None :: s) with (repeat None 1 ++ s) in Hm, Hf, He.
  rewrite matches_at_wildcards in Hm.
  assert (Hfull : size (repeat None 1 ++ s) = 1 + size s).
  { unfold size. cbn [repeat app length]. lia. }
  change (Z.of_nat 1) with 1 in Hm.
  unfold find_all_pattern_counted.
  pose proof (truncate_wildcards 1 v rest) as Htr.
  cbn [repeat app] in Htr. fold s in Htr. rewrite Htr.
  cbv zeta. change (Z.of_nat 1) with 1.
  destruct (Hsc X1 s h) as [Hsig Hker].
  set (ctx := create rs ah ce X1 s h) in *.
  (* from any cursor between [b + 1] and the hit, the kernel finds the hit *)
  assert (Hscan : forall i, b + 1 <= i <= a + 1 ->
                    scanner ctx mem i e (fields ctx) = Done (Some (a + 1))).
  { intros i Hi.
    destruct (concrete_head_scan mem ctx v rest b e Hsig Hker Hmap i)
      as (r & Hr & Hfm); [lia | fold s; lia |].
    rewrite Hr. f_equal. fold s in Hfm.
    apply (first_match_unique mem (multiple_of 1) s i e); [exact Hfm |].
    cbn [first_match]. repeat split; try lia; [apply Z.mod_1_r | exact Hm |].
    intros q Hq _ Hqm. apply (Hf (q - 1)); [lia | apply Z.mod_1_r |].
    apply matches_at_wildcards. change (Z.of_nat 1) with 1.
    now replace (q - 1 + 1) with q by lia. }
  assert (Hloop : forall n i m, b + 1 <= i <= a + 1 ->
                    snd (find_all_counted_loop mem n X1 ctx 1 s (b + 1) e i m)
                    = OutOfFuel /\
                    outputs (fst (find_all_counted_loop mem n X1 ctx 1 s (b + 1) e
                                    i m)) = repeat a n).
  { induction n as [|n IH]; intros i m Hi; [split; reflexivity |].
    rewrite find_all_counted_loop_step.
    rewrite to_size_t_small by lia.
    destruct (Z.ltb_spec (b + 1) e) as [_ | Hbad]; [| lia].
    destruct (Z.leb_spec (size s) (e - i)) as [_ | Hbad]; [| lia].
    cbn [andb]. rewrite (Hscan i Hi). cbv zeta. cbn [alignment_stride].
    change (Z.of_nat 1) with 1.
    replace (a + 1 - 1 + 1) with (a + 1) by lia.
    replace (a + 1 - 1) with a by lia.
    destruct (IH (a + 1) (to_size_t (m + 1)) ltac:(lia)) as [Hs Ho].
    cbn [fst snd]. rewrite outputs_hit. cbn [repeat]. split; [exact Hs |].
    f_equal. exact Ho. }
  apply Hloop. lia.
Qed.

(** Range [11 33 44] at address 16, signature [? 33], five steps. *)
Lemma find_all_counted_one_wildcard_diverges_witness :
  outputs (fst (find_all_pattern_counted resolve_scalar apply_no_hints false
                  (mem_of 16 [x11; x33; x44]) 5 X1 16 19 [None; Some x33] hint_none))
  = repeat 16 5.
Proof.
  refine (proj2 (find_all_counted_one_wildcard_diverges resolve_scalar
                   apply_no_hints false (mem_of 16 [x11; x33; x44]) 16 19 x33 []
                   hint_none 16 5 (fallback_selects_scalar false)
                   (mem_of_mapped 16 _) _ _ _)).
  - lia.
  - reflexivity.
  - reflexivity.
Defined.

Section FindAllStride16.

Variable mem : memory.
Variable ctx : scan_context.
Variable v : byte.
Variable rest : signature_view.
Variable b e : address.

Hypothesis Hsig : signature (fields ctx) = Some v :: rest.
Hypothesis Hker : exists c, scanner ctx = find_pattern_FastFirst c X16.
Hypothesis Hmap : mapped mem b e.

(** The counted loop with stride 16 from cursor [i]. *)
Lemma counted_loop_stride16 (fuel : nat) (i : address) (m : Z) :
  b <= i <= e ->
  (Z.to_nat (e - i) < fuel)%nat ->
  0 <= m -> m + (e - i) < 2 ^ 64 ->
  let scanEnd := prev_boundary_align X16 (e - size (Some v :: rest) + 1) in
  exists t,
    find_all_counted_loop mem fuel X16 ctx 0 (Some v :: rest) b e i m
    = (t, Done (m + Z.of_nat (length (outputs t)))) /\
    StronglySorted Z.lt (outputs t) /\
    (forall a, In a (outputs t) <->
               i <= a < scanEnd /\ a mod 16 = 0 /\
               matches_at mem (Some v :: rest) a).
Proof.
  set (s := Some v :: rest) in *. intros Hi Hfuel Hm Hwrap scanEnd.
  assert (Hsz : size s = size rest + 1) by apply size_cons.
  pose proof (size_nonneg rest) as Hrest.
  destruct (prev_boundary_align_X16_spec (e - size s + 1)) as [Hprev Hpa].
  fold scanEnd in Hprev, Hpa.
  revert i m Hi Hfuel Hm Hwrap.
  induction fuel as [|fuel IH]; intros i m Hi Hfuel Hm Hwrap; [lia |].
  rewrite find_all_counted_loop_step. rewrite to_size_t_small by lia.
  assert (Hdone : size s > e - i \/ e <= b ->
            exists t, ([] : list event, Done m)
                      = (t, Done (m + Z.of_nat (length (outputs t)))) /\
                      StronglySorted Z.lt (outputs t) /\
                      (forall a, In a (outputs t) <->
                                 i <= a < scanEnd /\ a mod 16 = 0 /\
                                 matches_at mem s a)).
  { intros Hshort. exists []. cbn [outputs flat_map length].
    rewrite Z.add_0_r. split; [reflexivity |]. split; [constructor |].
    intros a. split; [intros [] | intros (Ha & _); lia]. }
  destruct (Z.ltb_spec b e) as [Hbe | Hbe]; [| apply Hdone; lia].
  destruct (Z.leb_spec (size s) (e - i)) as [Hlen | Hlen]; [| apply Hdone; lia].
  cbn [andb]. destruct Hker as [c Hc]. rewrite Hc.
  cbn [find_pattern_FastFirst].
  destruct (find_pattern_FastFirst_X16_spec mem i e (fields ctx) v rest Hsig)
    as (r & Hr & Hfm).
  { intros a Ha. apply Hmap. lia. }
  rewrite Hsig in Hfm. fold s scanEnd in Hfm. rewrite Hr.
  destruct r as [p|]; cbn [first_match] in Hfm.
  - destruct Hfm as (Hip & Hpe & Hpal & Hpm & Hfirst). unfold multiple_of in Hpal.
    assert (Hnext : p + 16 <= scanEnd) by (apply aligned_gap; auto; lia).
    cbv zeta. cbn [alignment_stride].
    replace (p - Z.of_nat 0 + 16) with (p + 16) by lia.
    replace (p - Z.of_nat 0) with p by lia.
    rewrite (to_size_t_small (m + 1)) by lia.
    destruct (IH (p + 16) (m + 1)) as (t & Ht & Hsorted & Hin); try lia.
    exists (EvScan i e :: EvOut p :: t). rewrite Ht. cbn [fst snd].
    rewrite outputs_hit. cbn [length In].
    split; [do 2 f_equal; lia |]. split.
    + constructor; [exact Hsorted |]. apply Forall_forall. intros a Ha.
      apply Hin in Ha. lia.
    + intros a. split.
      * intros [<- | Ha]; [| apply Hin in Ha]; (split; [lia | split]);
          try lia; try tauto.
      * intros (Ha & Haa & Ham).
        destruct (Z.lt_trichotomy a p) as [Hlt | [-> | Hgt]].
        -- exfalso. apply (Hfirst a); [lia | exact Haa | exact Ham].
        -- now left.
        -- right. apply Hin. repeat split; try lia; try assumption.
           pose proof (aligned_gap p a Hpal Haa Hgt). lia.
  - exists [EvScan i e]. cbn [outputs flat_map app length].
    rewrite Z.add_0_r. split; [reflexivity |]. split; [constructor |].
    intros a. split; [intros [] |]. intros (Ha & Haa & Ham). exfalso.
    apply (Hfm a); [lia | lia | exact Haa | exact Ham].
Qed.

End FindAllStride16.

(** The counted find-all with stride 16, the scalar kernel and a signature
    that starts with a concrete element: with a step budget above the
    length of the range it ends, it returns the number of addresses
    written, and these are, each once and in increasing order, exactly the
    multiples of 16 in [[begin, scanEnd)] at which the signature matches,
    [scanEnd] being [end - len + 1] rounded down to a multiple of 16. *)
Theorem find_all_counted_X16_within_bound :
  forall (rs : scan_alignment -> scan_function_t * Z)
         (ah : scan_context -> scan_context) (ce : bool) (mem : memory)
         (fuel : nat) (b e : address) (v : byte) (rest : signature_view)
         (h : scan_hint),
    selects_scalar rs ah ce ->
    mapped mem b e -> 0 <= b -> b <= e -> e < 2 ^ 64 ->
    (Z.to_nat (e - b) < fuel)%nat ->
    let scanEnd := prev_boundary_align X16 (e - size (Some v :: rest) + 1) in
    exists t,
      find_all_pattern_counted rs ah ce mem fuel X16 b e (Some v :: rest) h
      = (t, Done (Z.of_nat (length (outputs t)))) /\
      StronglySorted Z.lt (outputs t) /\
      (forall a, In a (outputs t) <->
                 b <= a < scanEnd /\ a mod 16 = 0 /\
                 matches_at mem (Some v :: rest) a).
Proof.
  intros rs ah ce mem fuel b e v rest h Hsc Hmap Hlo Hbe Hhi Hfuel scanEnd.
  unfold find_all_pattern_counted. cbn [truncate truncate_offset subspan skipn].
  cbv zeta. replace (b + Z.of_nat 0) with b by lia.
  destruct (Hsc X16 (Some v :: rest) h) as [Hsig Hker].
  set (ctx := create rs ah ce X16 (Some v :: rest) h) in *.
  destruct (counted_loop_stride16 mem ctx v rest b e Hsig Hker Hmap fuel b 0)
    as (t & Ht & Hrest); try lia.
  exists t. rewrite Ht. split; [reflexivity | exact Hrest].
Qed.

(** 48 bytes from address 16 that start with [AB] at 16 and at 32. *)
Lemma find_all_counted_X16_within_bound_witness :
  let mem := mem_of 16 (xab :: repeat x00 15 ++ xab :: repeat x00 31) in
  let scanEnd := prev_boundary_align X16 (64 - size [Some xab] + 1) in
  exists t,
    find_all_pattern_counted resolve_scalar apply_no_hints false mem 49 X16 16 64
      [Some xab] hint_none
    = (t, Done (Z.of_nat (length (outputs t)))) /\
    StronglySorted Z.lt (outputs t) /\
    (forall a, In a (outputs t) <->
               16 <= a < scanEnd /\ a mod 16 = 0 /\ matches_at mem [Some xab] a).
Proof.
  refine (find_all_counted_X16_within_bound resolve_scalar apply_no_hints false
            (mem_of 16 (xab :: repeat x00 15 ++ xab :: repeat x00 31)) 49 16 64 xab []
            hint_none (fallback_selects_scalar false) (mem_of_mapped 16 _) _ _ _ _).
  - lia.
  - lia.
  - reflexivity.
  - vm_compute. lia.
Defined.

(** The vector overload with stride 1, the scalar kernel and a signature
    that starts with a concrete element: with a step budget above the
    length of the range it returns the list of all starts of the range at
    which the signature matches, in increasing order and without
    repetition. *)
Theorem find_all_vector_X1_lists_matches :
  forall (rs : scan_alignment -> scan_function_t * Z)
         (ah : scan_context -> scan_context) (ce : bool) (mem : memory)
         (fuel : nat) (b e : address) (v : byte) (rest : signature_view),
    selects_scalar rs ah ce ->
    mapped mem b e -> 0 <= b -> b <= e -> e < 2 ^ 64 ->
    (Z.to_nat (e - b) < fuel)%nat ->
    exists results,
      snd (find_all_pattern_vector rs ah ce mem fuel X1 b e (Some v :: rest))
      = Done results /\
      StronglySorted Z.lt results /\
      (forall a, In a results <->
                 b <= a /\ a + size (Some v :: rest) <= e /\
                 matches_at mem (Some v :: rest) a).
Proof.
  intros rs ah ce mem fuel b e v rest Hsc Hmap Hlo Hbe Hhi Hfuel.
  unfold find_all_pattern_vector, find_all_pattern_counted.
  cbn [truncate truncate_offset subspan skipn].
  cbv zeta. replace (b + Z.of_nat 0) with b by lia.
  destruct (Hsc X1 (Some v :: rest) hint_none) as [Hsig Hker].
  set (ctx := create rs ah ce X1 (Some v :: rest) hint_none) in *.
  destruct (counted_loop_concrete_head mem ctx v rest b e Hsig Hker Hmap fuel b 0)
    as (t & Ht & Hsorted & Hin & _); try lia.
  rewrite Ht. cbn [snd obind]. exists (outputs t).
  split; [reflexivity |]. split; [exact Hsorted | exact Hin].
Qed.

Lemma find_all_vector_X1_lists_matches_witness :
  exists results,
    snd (find_all_pattern_vector resolve_scalar apply_no_hints false
           (mem_of 16 [xab; xab; xab; xab]) 5 X1 16 20 [Some xab; Some xab])
    = Done results /\
    StronglySorted Z.lt results /\
    (forall a, In a results <->
               16 <= a /\ a + size [Some xab; Some xab] <= 20 /\
               matches_at (mem_of 16 [xab; xab; xab; xab]) [Some xab; Some xab] a).
Proof.
  refine (find_all_vector_X1_lists_matches resolve_scalar apply_no_hints false
            (mem_of 16 [xab; xab; xab; xab]) 5 16 20 xab [Some xab]
            (fallback_selects_scalar false) (mem_of_mapped 16 _) _ _ _ _).
  - lia.
  - lia.
  - reflexivity.
  - vm_compute. lia.
Defined.

(** [rel] at the edges of the address space: a target below address 0
    wraps to the top of the address space, and a target of exactly 0 is
    the null pointer. *)
Example rel_wraps_and_nulls :
  rel (mem_of 1052672 [x00; x00; x00; x80]) (Some 1052672) 0
  = Done (Some 18446744071563120644) /\
  rel (mem_of 2147483644 [x00; x00; x00; x80]) (Some 2147483644) 0 = Done None.
Proof.
  split; vm_compute; reflexivity.
Qed.
